(** * Session identity, routing, cache and permission core of claudecodeui

    A shallow embedding of the JavaScript sources
      - server/claude-sdk.js            (permission arbiter, session abort)
      - src/stores/sessionSignals.js    (signal based session cache, and the
                                         zustand store useSessionStore)
      - the ChatInterface / App handlers quoted in the dev logs
        (message filter, session-created handling, transcript sync)
    followed by the properties of the specification checked against them. *)

From Stdlib Require Import ZArith String.
From stdpp Require Import base decidable option list gmap strings pretty.

Open Scope string_scope.
Open Scope list_scope.

(** ** JavaScript values used by the sources *)

Module JS.

(** Truthiness of a string value: only the empty string is falsy. *)
Definition truthy (s : string) : bool := negb (String.eqb s "").

(** Truthiness of a value that is either [null]/[undefined] or a string. *)
Definition truthy_opt (o : option string) : bool :=
  match o with
  | Some s => truthy s
  | None => false
  end.

(** [a || b] where [a] may be missing and [b] is the default. *)
Definition or_string (a : option string) (b : string) : string :=
  match a with
  | Some s => if truthy s then s else b
  | None => b
  end.

Definition or_nat (a : option nat) (b : nat) : nat :=
  match a with
  | Some (S n) => S n
  | _ => b
  end.

Definition or_bool (a : option bool) (b : bool) : bool :=
  match a with
  | Some true => true
  | _ => b
  end.

(** Arrays are always truthy, so [a || []] only replaces a missing value. *)
Definition or_array {A} (a : option (list A)) : list A :=
  match a with
  | Some l => l
  | None => []
  end.

(** [a ?? b] *)
Definition nullish {A} (a : option A) (b : A) : A :=
  match a with
  | Some x => x
  | None => b
  end.

(** [s.startsWith(p)] *)
Definition startsWith (s p : string) : bool := String.prefix p s.

End JS.

(** ** JavaScript [Map]: keys kept in insertion order, one entry per key *)

Module JSMap.
Section ops.
Context {V : Type}.

Definition keys (m : list (string * V)) : list string := m.*1.

Fixpoint get (k : string) (m : list (string * V)) : option V :=
  match m with
  | [] => None
  | (k', v) :: r => if decide (k' = k) then Some v else get k r
  end.

Definition has (k : string) (m : list (string * V)) : bool :=
  bool_decide (is_Some (get k m)).

(** [m.set(k, v)]: an existing key keeps its position. *)
Fixpoint set (k : string) (v : V) (m : list (string * V)) : list (string * V) :=
  match m with
  | [] => [(k, v)]
  | (k', v') :: r =>
      if decide (k' = k) then (k, v) :: r else (k', v') :: set k v r
  end.

Fixpoint delete (k : string) (m : list (string * V)) : list (string * V) :=
  match m with
  | [] => []
  | (k', v') :: r =>
      if decide (k' = k) then delete k r else (k', v') :: delete k r
  end.

(** Well-formed maps hold one entry per key. *)
Definition wf (m : list (string * V)) : Prop := NoDup (keys m).

End ops.
End JSMap.

(** ** server/claude-sdk.js: the permission arbiter *)

Module ClaudeSDK.
Section arbiter.
(** Tool inputs and permission suggestions are opaque to the server. *)
Context {Input Suggestion : Type}.

(** The [PermissionResult] handed back to the SDK. *)
Inductive PermissionResult :=
| ResultAllow (updatedInput : Input) (updatedPermissions : list Suggestion)
| ResultDeny (message : string) (interrupt : bool).

(** A call of the [resolve] or [reject] function of a request's promise. *)
Inductive Settlement :=
| Resolved (r : PermissionResult)
| Rejected (error : string).

(** Metadata passed to [registerPermissionRequest]. *)
Record Metadata := {
  toolName : string;
  input : Input;
  suggestions : option (list Suggestion);
  toolUseID : string;
}.

(** An entry of [pendingPermissionRequests]: the metadata and the time of
    registration.  The [resolve]/[reject] pair stored with it settles the
    promise of this request; calls to them are logged under the request id. *)
Record PendingRequest := {
  metadata : Metadata;
  timestamp : Z;
}.

(** The user's answer, as received in a [permission-response] message. *)
Record Response := {
  behavior : string;
  message : option string;
  updatedPermissions : option (list Suggestion);
  interrupt : option bool;
}.

Record Arbiter := {
  pendingPermissionRequests : list (string * PendingRequest);
  resolverCalls : list (string * Settlement);
}.

Definition registerPermissionRequest
    (requestId : string) (meta : Metadata) (now : Z) (st : Arbiter) : Arbiter :=
  {| pendingPermissionRequests :=
       JSMap.set requestId {| metadata := meta; timestamp := now |}
         (pendingPermissionRequests st);
     resolverCalls := resolverCalls st |}.

Definition buildPermissionResult (pending : PendingRequest) (response : Response)
    : PermissionResult :=
  if String.eqb (behavior response) "allow" then
    ResultAllow (input (metadata pending)) (JS.or_array (updatedPermissions response))
  else
    ResultDeny (JS.or_string (message response) "User denied the request")
               (match interrupt response with Some false => false | _ => true end).

Definition resolvePermissionRequest
    (requestId : string) (response : Response) (st : Arbiter) : bool * Arbiter :=
  match JSMap.get requestId (pendingPermissionRequests st) with
  | None => (false, st)
  | Some pending =>
      (true,
       {| pendingPermissionRequests :=
            JSMap.delete requestId (pendingPermissionRequests st);
          resolverCalls :=
            resolverCalls st
            ++ [(requestId, Resolved (buildPermissionResult pending response))] |})
  end.

Definition defaultTimeoutMs : Z := 300000.

Definition timedOutResult : PermissionResult :=
  ResultDeny "Permission request timed out" false.

(** Body of the loop of [cleanupTimedOutPermissions]. *)
Definition cleanupEntry (now timeoutMs : Z) (st : Arbiter)
    (entry : string * PendingRequest) : Arbiter :=
  let '(requestId, request) := entry in
  if bool_decide (now - timestamp request > timeoutMs)%Z then
    {| pendingPermissionRequests :=
         JSMap.delete requestId (pendingPermissionRequests st);
       resolverCalls := resolverCalls st ++ [(requestId, Resolved timedOutResult)] |}
  else st.

(** [now] is the value of [Date.now()]; a missing argument takes the
    default of five minutes. *)
Definition cleanupTimedOutPermissions
    (timeoutMs : option Z) (now : Z) (st : Arbiter) : Arbiter :=
  fold_left (cleanupEntry now (JS.nullish timeoutMs defaultTimeoutMs))
            (pendingPermissionRequests st) st.

(** The [permission-request] message sent to the frontend. *)
Record PermissionRequestMessage := {
  msgRequestId : string;
  msgToolName : string;
  msgToolInput : Input;
  msgToolUseID : string;
  msgSuggestions : list Suggestion;
  msgTimestamp : Z;
}.

(** The callback built by [createCanUseTool], up to the point where it
    awaits the promise: [requestId] is the id drawn by
    [generatePermissionRequestId]. *)
Definition canUseTool (requestId : string) (meta : Metadata) (now : Z)
    (st : Arbiter) : Arbiter * PermissionRequestMessage :=
  (registerPermissionRequest requestId meta now st,
   {| msgRequestId := requestId;
      msgToolName := toolName meta;
      msgToolInput := input meta;
      msgToolUseID := toolUseID meta;
      msgSuggestions := JS.or_array (suggestions meta);
      msgTimestamp := now |}).

(** The listener installed on the abort signal of a request. *)
Definition onAbortSignal (requestId : string) (st : Arbiter) : Arbiter :=
  {| pendingPermissionRequests :=
       JSMap.delete requestId (pendingPermissionRequests st);
     resolverCalls :=
       resolverCalls st ++ [(requestId, Rejected "Permission request aborted")] |}.

(** Events that reach the arbiter.  A request carries the session whose
    query invoked the callback; the arbiter itself never sees it. *)
Inductive ArbiterEvent :=
| EvCanUseTool (session requestId : string) (meta : Metadata) (now : Z)
| EvPermissionResponse (requestId : string) (response : Response)
| EvAbortSignal (requestId : string)
| EvCleanup (timeoutMs : option Z) (now : Z).

Definition arbiterStep (st : Arbiter) (ev : ArbiterEvent) : Arbiter :=
  match ev with
  | EvCanUseTool _ requestId meta now => (canUseTool requestId meta now st).1
  | EvPermissionResponse requestId response =>
      (resolvePermissionRequest requestId response st).2
  | EvAbortSignal requestId => onAbortSignal requestId st
  | EvCleanup timeoutMs now => cleanupTimedOutPermissions timeoutMs now st
  end.

Definition emptyArbiter : Arbiter :=
  {| pendingPermissionRequests := []; resolverCalls := [] |}.

Definition runArbiter (evs : list ArbiterEvent) : Arbiter :=
  fold_left arbiterStep evs emptyArbiter.

(** Request ids sent on behalf of [session] during [evs]. *)
Definition requestsOf (session : string) (evs : list ArbiterEvent) : list string :=
  omap (λ ev, match ev with
              | EvCanUseTool s requestId _ _ =>
                  if decide (s = session) then Some requestId else None
              | _ => None
              end) evs.

(** Requests of [session] that are still pending after [evs]. *)
Definition unresolvedOf (session : string) (evs : list ArbiterEvent) : list string :=
  filter (λ requestId,
            is_Some (JSMap.get requestId (pendingPermissionRequests (runArbiter evs))))
         (requestsOf session evs).

(** Calls logged for one request. *)
Definition callsFor (requestId : string) (st : Arbiter) : list (string * Settlement) :=
  filter (λ c, c.1 = requestId) (resolverCalls st).

End arbiter.
Arguments PermissionResult : clear implicits.
Arguments Settlement : clear implicits.
Arguments Metadata : clear implicits.
Arguments PendingRequest : clear implicits.
Arguments Response : clear implicits.
Arguments Arbiter : clear implicits.
Arguments ArbiterEvent : clear implicits.
Arguments PermissionRequestMessage : clear implicits.

(** *** Active sessions and their temporary files *)

(** An entry of [activeSessions].  The query instance is represented by the
    outcome of its [interrupt()] call, supplied where it is awaited. *)
Record SessionEntry := {
  startTime : Z;
  status : string;
  tempImagePaths : list string;
  tempDir : option string;
}.

(** The server state touched by session tracking: the [activeSessions] map
    and the paths that exist on disk. *)
Record Sessions := {
  activeSessions : list (string * SessionEntry);
  fileSystem : gset string;
}.

(** How an awaited call completes. *)
Inductive Completion :=
| Returns
| Throws (error : string).

Definition addSession (sessionId : string) (now : Z)
    (paths : list string) (dir : option string) (st : Sessions) : Sessions :=
  {| activeSessions :=
       JSMap.set sessionId
         {| startTime := now; status := "active";
            tempImagePaths := paths; tempDir := dir |}
         (activeSessions st);
     fileSystem := fileSystem st |}.

Definition removeSession (sessionId : string) (st : Sessions) : Sessions :=
  {| activeSessions := JSMap.delete sessionId (activeSessions st);
     fileSystem := fileSystem st |}.

Definition getSession (sessionId : string) (st : Sessions) : option SessionEntry :=
  JSMap.get sessionId (activeSessions st).

Definition getAllSessions (st : Sessions) : list string :=
  JSMap.keys (activeSessions st).

Definition isClaudeSDKSessionActive (sessionId : string) (st : Sessions) : bool :=
  match getSession sessionId st with
  | Some session => String.eqb (status session) "active"
  | None => false
  end.

(** [fs.unlink(path)], taken to succeed; the source catches a failure and
    only logs it. *)
Definition unlink (path : string) (fs : gset string) : gset string :=
  fs ∖ {[ path ]}.

(** [p] is [dir] itself or lies below it. *)
Definition under (dir p : string) : bool :=
  String.eqb p dir || String.prefix (dir +:+ "/") p.

(** [fs.rm(dir, { recursive: true, force: true })], taken to succeed. *)
Definition rmRecursive (dir : string) (fs : gset string) : gset string :=
  filter (λ p, under dir p = false) fs.

Definition cleanupTempFiles (paths : list string) (dir : option string)
    (fs : gset string) : gset string :=
  match paths with
  | [] => fs
  | _ =>
      let fs1 := fold_left (λ acc imagePath, unlink imagePath acc) paths fs in
      match dir with
      | Some d => if JS.truthy d then rmRecursive d fs1 else fs1
      | None => fs1
      end
  end.

(** [session.status = 'aborted'] on the object shared with the map. *)
Definition markAborted (sessionId : string) (session : SessionEntry)
    (st : Sessions) : Sessions :=
  {| activeSessions :=
       JSMap.set sessionId
         {| startTime := startTime session; status := "aborted";
            tempImagePaths := tempImagePaths session;
            tempDir := tempDir session |}
         (activeSessions st);
     fileSystem := fileSystem st |}.

(** [interrupted] is how [session.instance.interrupt()] completes. *)
Definition abortClaudeSDKSession (sessionId : string) (interrupted : Completion)
    (st : Sessions) : bool * Sessions :=
  match getSession sessionId st with
  | None => (false, st)
  | Some session =>
      match interrupted with
      | Throws _ => (false, st)
      | Returns =>
          let st1 := markAborted sessionId session st in
          let st2 :=
            {| activeSessions := activeSessions st1;
               fileSystem :=
                 cleanupTempFiles (tempImagePaths session) (tempDir session)
                   (fileSystem st1) |} in
          (true, removeSession sessionId st2)
      end
  end.

(** *** Announcing the id of a new session *)

(** Messages written to the WebSocket by [queryClaudeSDK] that concern the
    identity of the session. *)
Inductive WsEvent :=
| SessionCreated (sessionId : string)
| ClaudeResponse (sessionId : option string).

(** Local variables of one [queryClaudeSDK] call. *)
Record QueryState := {
  optionsSessionId : option string;
  capturedSessionId : option string;
  sessionCreatedSent : bool;
}.

(** One round of the streaming loop for an SDK message carrying
    [session_id]: the new state and the events sent. *)
Definition onSdkMessage (session_id : option string) (q : QueryState)
    : QueryState * list WsEvent :=
  if JS.truthy_opt session_id && negb (JS.truthy_opt (capturedSessionId q)) then
    if negb (JS.truthy_opt (optionsSessionId q)) && negb (sessionCreatedSent q) then
      ({| optionsSessionId := optionsSessionId q;
          capturedSessionId := session_id;
          sessionCreatedSent := true |},
       [SessionCreated (default "" session_id); ClaudeResponse session_id])
    else
      ({| optionsSessionId := optionsSessionId q;
          capturedSessionId := session_id;
          sessionCreatedSent := sessionCreatedSent q |},
       [ClaudeResponse session_id])
  else (q, [ClaudeResponse session_id]).

End ClaudeSDK.


(** ** JavaScript [Set] of strings: members kept in insertion order *)

Module JSSet.
Definition add (x : string) (s : list string) : list string :=
  if decide (x ∈ s) then s else s ++ [x].

Definition delete (x : string) (s : list string) : list string :=
  filter (λ y, y <> x) s.

Definition has (x : string) (s : list string) : bool := bool_decide (x ∈ s).
End JSSet.

(** ** App.jsx: the set of protected (active) sessions *)

Module App.

(** [sid.startsWith('new-session-')] *)
Definition isTemporary (sid : string) : bool := JS.startsWith sid "new-session-".

(** [handleSessionActive] / [handleSessionInactive] *)
Definition markSessionActive (sessionId : string) (activeSessions : list string)
    : list string :=
  JSSet.add sessionId activeSessions.


(** The loop of [replaceTemporarySession]: walk the set in insertion order,
    delete the first temporary id and stop.  The second component is the id
    reported by the log line of the loop, if any. *)
Fixpoint deleteFirstTemporary (iteration newSet : list string)
    : list string * option string :=
  match iteration with
  | [] => (newSet, None)
  | sid :: rest =>
      if isTemporary sid then (JSSet.delete sid newSet, Some sid)
      else deleteFirstTemporary rest newSet
  end.

Definition replaceTemporarySession (realSessionId : string) (prev : list string)
    : list string * option string :=
  let '(newSet, replaced) := deleteFirstTemporary prev prev in
  (JSSet.add realSessionId newSet, replaced).

End App.

(** ** ChatInterface.jsx: message filter, session-created handling, sync *)

Module ChatInterface.

(** Identity state of the chat view: the React state [currentSessionId] and
    the [pendingSessionId] item of [sessionStorage]. *)
Record View := {
  currentSessionId : option string;
  pendingSessionId : option string;
}.

(** The session filter applied to every incoming message; [true] means the
    handler goes on to process the message, [false] that it returned. *)
Definition acceptsMessage (isGlobalMessage : bool) (messageSessionId : option string)
    (v : View) : bool :=
  if negb isGlobalMessage && JS.truthy_opt messageSessionId then
    if JS.truthy_opt (currentSessionId v)
       && bool_decide (messageSessionId <> currentSessionId v)
    then false
    else if negb (JS.truthy_opt (currentSessionId v)) then
      if JS.truthy_opt (pendingSessionId v)
         && bool_decide (messageSessionId <> pendingSessionId v)
      then false
      else true
    else true
  else true.

(** [case 'session-created'] of the message handler: the view, the
    [activeSessions] of the App, and the temporary id replaced (if any). *)
Definition onSessionCreated (sessionId : string) (v : View)
    (activeSessions : list string) : View * list string * option string :=
  if JS.truthy sessionId && negb (JS.truthy_opt (currentSessionId v)) then
    let '(active', replaced) := App.replaceTemporarySession sessionId activeSessions in
    ({| currentSessionId := currentSessionId v;
        pendingSessionId := Some sessionId |}, active', replaced)
  else (v, activeSessions, None).

(** Deliver a sequence of [session-created] events to the view in order,
    collecting for each the temporary id it replaced. *)
Fixpoint deliverSessionCreated (events : list string) (v : View)
    (activeSessions : list string)
    : View * list string * list (option string * string) :=
  match events with
  | [] => (v, activeSessions, [])
  | realId :: rest =>
      let '(v', active', replaced) := onSessionCreated realId v activeSessions in
      let '(vfinal, final, log) := deliverSessionCreated rest v' active' in
      (vfinal, final, (replaced, realId) :: log)
  end.

(** The view of a conversation that was just started: no id is known yet. *)
Definition newConversation : View :=
  {| currentSessionId := None; pendingSessionId := None |}.

(** A displayed chat message; [content] is the opaque payload. *)
Record ChatMessage := {
  isPermissionRequest : bool;
  permissionResolved : bool;
  content : string;
}.

Definition isPendingPermission (m : ChatMessage) : bool :=
  isPermissionRequest m && negb (permissionResolved m).

(** The updater of the effect that syncs the transcript into [chatMessages]:
    [sessionMessages] are the raw transcript records, [convertedMessages]
    their converted form, [prev] the list currently displayed. *)
Definition syncChatMessages {Raw : Type} (sessionMessages : list Raw)
    (convertedMessages prev : list ChatMessage) : list ChatMessage :=
  if (0 <? length sessionMessages)%nat then
    let pendingPermissionRequests := filter (λ m, isPendingPermission m = true) prev in
    if (0 <? length pendingPermissionRequests)%nat
    then convertedMessages ++ pendingPermissionRequests
    else convertedMessages
  else prev.

End ChatInterface.

(** ** Routing rule of the specification *)

Module RoutingSpec.

(** Resolver state of the viewed slot. *)
Inductive Slot :=
| Final (x : string)
| PendingReal (x : string)
| Placeholder.

(** A session-scoped event is accepted when the slot carries an identifier
    equal to the event's, or carries none yet. *)
Definition accepts (slot : Slot) (eventSessionId : string) : bool :=
  match slot with
  | Final x => bool_decide (eventSessionId = x)
  | PendingReal x => bool_decide (eventSessionId = x)
  | Placeholder => true
  end.

(** The slot a chat view is in. *)
Definition slotOf (v : ChatInterface.View) : Slot :=
  match ChatInterface.currentSessionId v with
  | Some x => if JS.truthy x then Final x else
      match ChatInterface.pendingSessionId v with
      | Some y => if JS.truthy y then PendingReal y else Placeholder
      | None => Placeholder
      end
  | None =>
      match ChatInterface.pendingSessionId v with
      | Some y => if JS.truthy y then PendingReal y else Placeholder
      | None => Placeholder
      end
  end.

End RoutingSpec.


(** ** Pagination records shared by the two session caches *)

Record Pagination := {
  offset : nat;
  hasMore : bool;
  total : nat;
}.

(** A pagination argument, any field of which may be missing. *)
Record PaginationArg := {
  argOffset : option nat;
  argHasMore : option bool;
  argTotal : option nat;
}.

Definition noPagination : PaginationArg :=
  {| argOffset := None; argHasMore := None; argTotal := None |}.

Definition emptyPagination : Pagination :=
  {| offset := 0; hasMore := false; total := 0 |}.

Definition MAX_CACHED_SESSIONS : nat := 10.

(** ** src/stores/sessionSignals.js: the signal based cache *)

Module SessionSignals.
Section cache.
Context {Message : Type}.

Record CacheEntry := {
  messages : list Message;
  pagination : Pagination;
}.

Record Signals := {
  currentSessionId : option string;
  sessionCache : gmap string CacheEntry;
  accessOrder : list string;
}.

Definition isSessionCached (sessionId : string) (st : Signals) : bool :=
  bool_decide (is_Some (sessionCache st !! sessionId)).

(** [sessionCache.value[id]?.messages || []] *)
Definition cachedMessages (sessionId : string) (st : Signals) : list Message :=
  match sessionCache st !! sessionId with
  | Some e => messages e
  | None => []
  end.

Definition currentMessages (st : Signals) : list Message :=
  match currentSessionId st with
  | Some id => if JS.truthy id then cachedMessages id st else []
  | None => []
  end.

Definition updateAccessOrder (sessionId : string) (st : Signals) : Signals :=
  if JS.truthy sessionId then
    {| currentSessionId := currentSessionId st;
       sessionCache := sessionCache st;
       accessOrder := filter (λ id, id <> sessionId) (accessOrder st) ++ [sessionId] |}
  else st.

Definition clearSession (sessionId : string) (st : Signals) : Signals :=
  {| currentSessionId := currentSessionId st;
     sessionCache := delete sessionId (sessionCache st);
     accessOrder := filter (λ id, id <> sessionId) (accessOrder st) |}.

Definition clearAllSessions (st : Signals) : Signals :=
  {| currentSessionId := None; sessionCache := ∅; accessOrder := [] |}.

Definition evictIfNeeded (st : Signals) : Signals :=
  if (length (accessOrder st) <=? MAX_CACHED_SESSIONS)%nat then st
  else
    match accessOrder st with
    | toEvict :: _ => clearSession toEvict st
    | [] => st
    end.

Definition switchToSession (sessionId : string) (st : Signals) : Signals :=
  updateAccessOrder sessionId
    {| currentSessionId := Some sessionId;
       sessionCache := sessionCache st;
       accessOrder := accessOrder st |}.

(** The assignment to [sessionCache.value] in [setSessionMessages]. *)
Definition storeSessionMessages (sessionId : string) (msgs : list Message)
    (pag : PaginationArg) (st : Signals) : Signals :=
  {| currentSessionId := currentSessionId st;
     sessionCache :=
       <[ sessionId :=
            {| messages := msgs;
               pagination :=
                 {| offset := JS.or_nat (argOffset pag) 0;
                    hasMore := JS.or_bool (argHasMore pag) false;
                    total := JS.or_nat (argTotal pag) (length msgs) |} |} ]>
         (sessionCache st);
     accessOrder := accessOrder st |}.

Definition setSessionMessages (sessionId : string) (msgs : list Message)
    (pag : PaginationArg) (st : Signals) : Signals :=
  evictIfNeeded (updateAccessOrder sessionId (storeSessionMessages sessionId msgs pag st)).

Definition prependSessionMessages (sessionId : string) (msgs : list Message)
    (pag : PaginationArg) (st : Signals) : Signals :=
  match sessionCache st !! sessionId with
  | None => setSessionMessages sessionId msgs pag st
  | Some existing =>
      updateAccessOrder sessionId
        {| currentSessionId := currentSessionId st;
           sessionCache :=
             <[ sessionId :=
                  {| messages := msgs ++ messages existing;
                     pagination :=
                       {| offset := JS.or_nat (argOffset pag) 0;
                          hasMore := JS.or_bool (argHasMore pag) false;
                          total := JS.or_nat (argTotal pag)
                                     (length (messages existing)) |} |} ]>
               (sessionCache st);
           accessOrder := accessOrder st |}
  end.

Definition updatePagination (sessionId : string) (pag : Pagination)
    (st : Signals) : Signals :=
  match sessionCache st !! sessionId with
  | None => st
  | Some existing =>
      {| currentSessionId := currentSessionId st;
         sessionCache :=
           <[ sessionId := {| messages := messages existing; pagination := pag |} ]>
             (sessionCache st);
         accessOrder := accessOrder st |}
  end.

Definition emptySignals : Signals :=
  {| currentSessionId := None; sessionCache := ∅; accessOrder := [] |}.

End cache.
Arguments CacheEntry : clear implicits.
Arguments Signals : clear implicits.
End SessionSignals.

(** ** useSessionStore: the zustand based cache *)

Module SessionStore.
Section store.
Context {Message : Type}.

Record SessionData := {
  messages : list Message;
  lastAccess : Z;
  pagination : Pagination;
}.

Record Store := {
  sessionData : gmap string SessionData;
  viewingSessionId : option string;
  accessOrder : list string;
}.

Definition emptyStore : Store :=
  {| sessionData := ∅; viewingSessionId := None; accessOrder := [] |}.

Definition _updateAccessOrder (sessionId : string) (st : Store) : Store :=
  {| sessionData := sessionData st;
     viewingSessionId := viewingSessionId st;
     accessOrder := filter (λ id, id <> sessionId) (accessOrder st) ++ [sessionId] |}.

(** The loop that fills [toEvict]: walk [accessOrder] from the least
    recently used id, skip the viewed session, stop as soon as enough
    victims are collected. *)
Fixpoint collectVictims (cachedCount : nat) (viewing : option string)
    (order toEvict : list string) : list string :=
  match order with
  | [] => toEvict
  | sessionId :: rest =>
      if bool_decide (Some sessionId <> viewing) then
        let toEvict' := toEvict ++ [sessionId] in
        if (Z.of_nat cachedCount - Z.of_nat (length toEvict')
              <=? Z.of_nat MAX_CACHED_SESSIONS)%Z
        then toEvict'
        else collectVictims cachedCount viewing rest toEvict'
      else collectVictims cachedCount viewing rest toEvict
  end.

(** [idx = a.indexOf(x); if (idx !== -1) a.splice(idx, 1)] *)
Fixpoint removeFirst (x : string) (a : list string) : list string :=
  match a with
  | [] => []
  | y :: r => if decide (y = x) then r else y :: removeFirst x r
  end.

(** The ids [_evictIfNeeded] decides to remove; empty when it returns
    early. *)
Definition victims (st : Store) : list string :=
  let cachedCount := size (sessionData st) in
  if (cachedCount <=? MAX_CACHED_SESSIONS)%nat then []
  else collectVictims cachedCount (viewingSessionId st) (accessOrder st) [].

Definition _evictIfNeeded (st : Store) : Store :=
  let toEvict := victims st in
  match toEvict with
  | [] => st
  | _ =>
      {| sessionData :=
           fold_left (λ newSessionData sessionId, delete sessionId newSessionData)
                     toEvict (sessionData st);
         viewingSessionId := viewingSessionId st;
         accessOrder :=
           fold_left (λ newAccessOrder sessionId, removeFirst sessionId newAccessOrder)
                     toEvict (accessOrder st) |}
  end.

(** The first [set] call of [setSessionMessages]: the entry is replaced
    wholesale.  [now] is the value of [Date.now()]; [msgs] may be missing. *)
Definition storeSessionMessages (sessionId : string) (msgs : option (list Message))
    (pag : PaginationArg) (now : Z) (st : Store) : Store :=
  {| sessionData :=
       <[ sessionId :=
            {| messages := JS.or_array msgs;
               lastAccess := now;
               pagination :=
                 {| offset := JS.or_nat (argOffset pag) 0;
                    hasMore := JS.or_bool (argHasMore pag) false;
                    total := JS.or_nat (argTotal pag)
                               (JS.or_nat (length <$> msgs) 0) |} |} ]>
         (sessionData st);
     viewingSessionId := viewingSessionId st;
     accessOrder := accessOrder st |}.

Definition setSessionMessages (sessionId : string) (msgs : option (list Message))
    (pag : PaginationArg) (now : Z) (st : Store) : Store :=
  if JS.truthy sessionId then
    _evictIfNeeded
      (_updateAccessOrder sessionId (storeSessionMessages sessionId msgs pag now st))
  else st.

Definition prependSessionMessages (sessionId : string) (msgs : option (list Message))
    (pag : PaginationArg) (now : Z) (st : Store) : Store :=
  match msgs with
  | Some (m :: ms) =>
      if JS.truthy sessionId then
        let existing :=
          default {| messages := []; lastAccess := now; pagination := emptyPagination |}
                  (sessionData st !! sessionId) in
        {| sessionData :=
             <[ sessionId :=
                  {| messages := (m :: ms) ++ messages existing;
                     lastAccess := now;
                     pagination :=
                       {| offset := JS.nullish (argOffset pag) (offset (pagination existing));
                          hasMore := JS.nullish (argHasMore pag) (hasMore (pagination existing));
                          total := JS.nullish (argTotal pag) (total (pagination existing)) |} |} ]>
               (sessionData st);
           viewingSessionId := viewingSessionId st;
           accessOrder := accessOrder st |}
      else st
  | _ => st
  end.

Definition switchSession (sessionId : option string) (st : Store) : Store :=
  let st1 :=
    {| sessionData := sessionData st;
       viewingSessionId := sessionId;
       accessOrder := accessOrder st |} in
  match sessionId with
  | Some id => if JS.truthy id then _updateAccessOrder id st1 else st1
  | None => st1
  end.

Definition getSessionMessages (sessionId : string) (st : Store) : list Message :=
  match sessionData st !! sessionId with
  | Some e => messages e
  | None => []
  end.

Definition getPagination (sessionId : string) (st : Store) : Pagination :=
  match sessionData st !! sessionId with
  | Some e => pagination e
  | None => emptyPagination
  end.

Definition isSessionCached (sessionId : string) (st : Store) : bool :=
  bool_decide (is_Some (sessionData st !! sessionId)).

Definition clearSession (sessionId : string) (st : Store) : Store :=
  {| sessionData := delete sessionId (sessionData st);
     viewingSessionId := viewingSessionId st;
     accessOrder := filter (λ id, id <> sessionId) (accessOrder st) |}.

Definition clearAllSessions (st : Store) : Store := emptyStore.

End store.
Arguments SessionData : clear implicits.
Arguments Store : clear implicits.
End SessionStore.

(** ** server/claude-sdk.js: mapping CLI options to SDK options *)

Module ClaudeSDKOptions.

Record ToolsSettings := {
  allowedTools : option (list string);
  disallowedTools : option (list string);
  skipPermissions : bool;
}.

Record CliOptions := {
  sessionId : option string;
  cwd : option string;
  toolsSettings : option ToolsSettings;
  permissionMode : option string;
  model : option string;
}.

(** The options object handed to the SDK; a field that is never assigned is
    [None]. *)
Record SdkOptions := {
  sdkCwd : option string;
  sdkPermissionMode : option string;
  sdkAllowedTools : option (list string);
  sdkDisallowedTools : option (list string);
  sdkModel : string;
  sdkSystemPromptPreset : string;
  sdkSettingSources : list string;
  sdkResume : option string;
}.

Definition defaultToolsSettings : ToolsSettings :=
  {| allowedTools := Some []; disallowedTools := Some []; skipPermissions := false |}.

Definition planModeTools : list string :=
  ["Read"; "Task"; "exit_plan_mode"; "TodoRead"; "TodoWrite"].

(** The loop that adds the plan mode tools that are not yet allowed. *)
Definition addPlanModeTools (allowed : list string) : list string :=
  fold_left (λ acc tool, if bool_decide (tool ∈ acc) then acc else acc ++ [tool])
            planModeTools allowed.

Definition mapCliOptionsToSDK (options : CliOptions) : SdkOptions :=
  let settings := JS.nullish (toolsSettings options) defaultToolsSettings in
  let mode1 :=
    match permissionMode options with
    | Some m => if JS.truthy m && negb (String.eqb m "default") then Some m else None
    | None => None
    end in
  let bypass :=
    skipPermissions settings
    && bool_decide (permissionMode options <> Some "plan") in
  let allowed :=
    let own := JS.or_array (allowedTools settings) in
    if bool_decide (permissionMode options = Some "plan")
    then addPlanModeTools own else own in
  {| sdkCwd :=
       match cwd options with
       | Some c => if JS.truthy c then Some c else None
       | None => None
       end;
     sdkPermissionMode := if bypass then Some "bypassPermissions" else mode1;
     sdkAllowedTools :=
       if bypass then None
       else if (0 <? length allowed)%nat then Some allowed else None;
     sdkDisallowedTools :=
       if bypass then None
       else match disallowedTools settings with
            | Some (t :: ts) => Some (t :: ts)
            | _ => None
            end;
     sdkModel := JS.or_string (model options) "sonnet";
     sdkSystemPromptPreset := "claude_code";
     sdkSettingSources := ["project"; "user"; "local"];
     sdkResume :=
       match sessionId options with
       | Some s => if JS.truthy s then Some s else None
       | None => None
       end |}.

End ClaudeSDKOptions.

(** ** server/claude-sdk.js: debug listings *)

Module ClaudeSDKDebug.
Import ClaudeSDK.

(** The numbers and unit letters that [formatDuration] prints, in order. *)
Definition durationFields (ms : Z) : list (Z * string) :=
  let seconds := (ms / 1000)%Z in
  let minutes := (seconds / 60)%Z in
  let hours := (minutes / 60)%Z in
  if (0 <? hours)%Z then
    [(hours, "h"); (Z.rem minutes 60, "m"); (Z.rem seconds 60, "s")]
  else if (0 <? minutes)%Z then
    [(minutes, "m"); (Z.rem seconds 60, "s")]
  else [(seconds, "s")].

Fixpoint joinFields (fields : list (Z * string)) : string :=
  match fields with
  | [] => ""
  | [(n, u)] => pretty n +:+ u
  | (n, u) :: rest => pretty n +:+ u +:+ " " +:+ joinFields rest
  end.

Definition formatDuration (ms : Z) : string := joinFields (durationFields ms).

(** Seconds a unit letter stands for. *)
Definition unitSeconds (u : string) : Z :=
  if String.eqb u "h" then 3600 else if String.eqb u "m" then 60 else 1.

Definition fieldsSeconds (fields : list (Z * string)) : Z :=
  foldr (λ f acc, (f.1 * unitSeconds f.2 + acc)%Z) 0%Z fields.

Section listings.
Context {Input Suggestion : Type}.

Record PendingInfo := {
  infoRequestId : string;
  infoToolName : string;
  infoToolUseID : string;
  infoTimestamp : Z;
  waitingTimeMs : Z;
  waitingTimeFormatted : string;
  infoInput : Input;
  infoSuggestions : option (list Suggestion);
}.

(** [now] is the value of [Date.now()]. *)
Definition getAllPendingPermissions (now : Z) (st : Arbiter Input Suggestion)
    : list PendingInfo :=
  (λ entry : string * PendingRequest Input Suggestion,
     let '(requestId, request) := entry in
     let waitingTime := (now - timestamp request)%Z in
     {| infoRequestId := requestId;
        infoToolName := toolName (metadata request);
        infoToolUseID := toolUseID (metadata request);
        infoTimestamp := timestamp request;
        waitingTimeMs := waitingTime;
        waitingTimeFormatted := formatDuration waitingTime;
        infoInput := input (metadata request);
        infoSuggestions := suggestions (metadata request) |})
  <$> pendingPermissionRequests st.

End listings.
Arguments PendingInfo : clear implicits.

Record SessionStatus := {
  statusSessionId : string;
  statusStatus : string;
  statusStartTime : Z;
  runningTimeMs : Z;
  runningTimeFormatted : string;
  hasTempFiles : bool;
}.

Definition getAllSessionsStatus (now : Z) (st : Sessions) : list SessionStatus :=
  (λ entry : string * SessionEntry,
     let '(sessionId, session) := entry in
     let runningTime := (now - startTime session)%Z in
     {| statusSessionId := sessionId;
        statusStatus := status session;
        statusStartTime := startTime session;
        runningTimeMs := runningTime;
        runningTimeFormatted := formatDuration runningTime;
        hasTempFiles := (0 <? length (tempImagePaths session))%nat |})
  <$> activeSessions st.

(** [getSessionInfo]: [None] when the session is not tracked. *)
Definition getSessionInfo (sessionId : string) (st : Sessions)
    : option (bool * Z * string) :=
  match getSession sessionId st with
  | None => None
  | Some session =>
      Some (String.eqb (status session) "active", startTime session, status session)
  end.

End ClaudeSDKDebug.

(** ** server/claude-sdk.js: the streaming loop of one query *)

Module ClaudeSDKStream.
Import ClaudeSDK.

(** The local variables of [queryClaudeSDK] before the loop: the captured id
    starts as the id to resume, if any. *)
Definition startQuery (sessionId : option string) : QueryState :=
  {| optionsSessionId := sessionId;
     capturedSessionId := sessionId;
     sessionCreatedSent := false |}.

(** The [for await] loop over the [session_id] fields of the SDK messages. *)
Fixpoint runStream (messages : list (option string)) (q : QueryState)
    : QueryState * list WsEvent :=
  match messages with
  | [] => (q, [])
  | session_id :: rest =>
      let '(q1, sent) := onSdkMessage session_id q in
      let '(q2, later) := runStream rest q1 in
      (q2, sent ++ later)
  end.

Definition isSessionCreated (ev : WsEvent) : bool :=
  match ev with
  | SessionCreated _ => true
  | ClaudeResponse _ => false
  end.

(** The first message id that is truthy. *)
Fixpoint firstSessionId (messages : list (option string)) : option string :=
  match messages with
  | [] => None
  | session_id :: rest =>
      if JS.truthy_opt session_id then session_id else firstSessionId rest
  end.

End ClaudeSDKStream.

(** ** ChatInterface.jsx: starting a conversation and answering a permission *)

Module ChatActions.


(** The session filter as it was before the fix: a view without a current
    session dropped every message that carries a session id. *)
Definition acceptsMessageBeforeFix (isGlobalMessage : bool)
    (messageSessionId : option string) (v : ChatInterface.View) : bool :=
  if negb isGlobalMessage && JS.truthy_opt messageSessionId then
    if JS.truthy_opt (ChatInterface.currentSessionId v)
       && bool_decide (messageSessionId <> ChatInterface.currentSessionId v)
    then false
    else if negb (JS.truthy_opt (ChatInterface.currentSessionId v)) then false
    else true
  else true.

(** A permission rule update as suggested by the SDK. *)
Record PermissionUpdate := {
  updateType : string;
  rules : list (string * string);
  updateBehavior : string;
  destination : string;
}.

(** The "Always Allow" handler: every suggestion is sent back with its
    destination forced to the local settings. *)
Definition persistedPermissions (suggestions : list PermissionUpdate)
    : list PermissionUpdate :=
  (λ s, {| updateType := updateType s; rules := rules s;
           updateBehavior := updateBehavior s;
           destination := "localSettings" |}) <$> suggestions.

(** The [permission-response] message sent by "Always Allow" for a displayed
    permission request, as the arbiter receives it. *)
Definition alwaysAllowResponse {Input}
    (request : ClaudeSDK.PermissionRequestMessage Input PermissionUpdate)
    : string * ClaudeSDK.Response PermissionUpdate :=
  (ClaudeSDK.msgRequestId request,
   {| ClaudeSDK.behavior := "allow";
      ClaudeSDK.message := None;
      ClaudeSDK.updatedPermissions :=
        Some (persistedPermissions (ClaudeSDK.msgSuggestions request));
      ClaudeSDK.interrupt := None |}).

End ChatActions.

(** ** utils/websocket.js: the buffer of received messages *)

Module WebSocketHook.

Definition MESSAGE_BUFFER : nat := 50.

(** [a.slice(-n)]: the last [n] elements. *)
Definition sliceLast {A} (n : nat) (a : list A) : list A :=
  drop (length a - n) a.

(** [onmessage]: [parsed] is the result of [JSON.parse], [None] when it
    throws. *)
Definition onMessage {A} (parsed : option A) (messages : list A) : list A :=
  match parsed with
  | Some data => sliceLast MESSAGE_BUFFER (messages ++ [data])
  | None => messages
  end.

Definition receiveAll {A} (frames : list (option A)) (messages : list A) : list A :=
  fold_left (λ acc parsed, onMessage parsed acc) frames messages.

End WebSocketHook.

(** ** Further operations of the zustand store *)

Module SessionStoreOps.
Import SessionStore.
Section ops.
Context {Message : Type}.

(** [{ ...existing.pagination, ...pagination }] *)
Definition mergePagination (existing : Pagination) (pag : PaginationArg) : Pagination :=
  {| offset := JS.nullish (argOffset pag) (offset existing);
     hasMore := JS.nullish (argHasMore pag) (hasMore existing);
     total := JS.nullish (argTotal pag) (total existing) |}.

Definition updatePagination (sessionId : string) (pag : PaginationArg)
    (st : Store Message) : Store Message :=
  if JS.truthy sessionId then
    match sessionData st !! sessionId with
    | None => st
    | Some existing =>
        {| sessionData :=
             <[ sessionId :=
                  {| messages := messages existing;
                     lastAccess := lastAccess existing;
                     pagination := mergePagination (pagination existing) pag |} ]>
               (sessionData st);
           viewingSessionId := viewingSessionId st;
           accessOrder := accessOrder st |}
    end
  else st.

(** A JavaScript object is indexed by the string form of the key, so a
    missing viewed session reads the property named [null]. *)
Definition viewedKey (st : Store Message) : string :=
  default "null" (viewingSessionId st).

Definition getCurrentSessionMessages (st : Store Message) : list Message :=
  getSessionMessages (viewedKey st) st.

Definition getCurrentPagination (st : Store Message) : Pagination :=
  getPagination (viewedKey st) st.

(** Every cached session is listed once in [accessOrder], and nothing else is. *)
Definition tracked (st : Store Message) : Prop :=
  NoDup (accessOrder st)
  ∧ ∀ k, k ∈ accessOrder st <-> is_Some (sessionData st !! k).

End ops.
End SessionStoreOps.

(** ** Driving the zustand store *)

Module SessionStoreRuns.
Import SessionStore.
Section runs.
Context {Message : Type}.

(** A call of one of the store's actions; [now] is the value of
    [Date.now()] for the actions that read it. *)
Inductive Action :=
| ASetSessionMessages (sessionId : string) (msgs : option (list Message))
    (pag : PaginationArg) (now : Z)
| APrependSessionMessages (sessionId : string) (msgs : option (list Message))
    (pag : PaginationArg) (now : Z)
| ASwitchSession (sessionId : option string)
| AUpdatePagination (sessionId : string) (pag : PaginationArg)
| AClearSession (sessionId : string)
| AClearAllSessions.

Definition perform (st : Store Message) (a : Action) : Store Message :=
  match a with
  | ASetSessionMessages sessionId msgs pag now =>
      setSessionMessages sessionId msgs pag now st
  | APrependSessionMessages sessionId msgs pag now =>
      prependSessionMessages sessionId msgs pag now st
  | ASwitchSession sessionId => switchSession sessionId st
  | AUpdatePagination sessionId pag => SessionStoreOps.updatePagination sessionId pag st
  | AClearSession sessionId => clearSession sessionId st
  | AClearAllSessions => clearAllSessions st
  end.

Definition performAll (actions : list Action) (st : Store Message) : Store Message :=
  fold_left perform actions st.

(** The action creates an entry through [prependSessionMessages]: it
    prepends a non-empty list for a session that is not cached. *)
Definition prependsUncached (st : Store Message) (a : Action) : bool :=
  match a with
  | APrependSessionMessages sessionId (Some (_ :: _)) _ _ =>
      JS.truthy sessionId && negb (isSessionCached sessionId st)
  | _ => false
  end.

(** Along the run, messages are only ever prepended to cached sessions. *)
Fixpoint prependsOnlyCached (actions : list Action) (st : Store Message) : bool :=
  match actions with
  | [] => true
  | a :: rest => negb (prependsUncached st a) && prependsOnlyCached rest (perform st a)
  end.

(** Every cached session is listed in [accessOrder]. *)
Definition listed (st : Store Message) : Prop :=
  ∀ k, is_Some (sessionData st !! k) -> k ∈ accessOrder st.

End runs.
Arguments Action : clear implicits.
End SessionStoreRuns.

(** ** Driving the signal cache *)

Module SessionSignalsOps.
Import SessionSignals.
Section ops.
Context {Message : Type}.

(** A call of one of the exported actions. *)
Inductive Action :=
| ASwitchToSession (sessionId : string)
| ASetSessionMessages (sessionId : string) (msgs : list Message) (pag : PaginationArg)
| APrependSessionMessages (sessionId : string) (msgs : list Message) (pag : PaginationArg)
| AUpdatePagination (sessionId : string) (pag : Pagination)
| AClearSession (sessionId : string)
| AClearAllSessions.

Definition perform (st : Signals Message) (a : Action) : Signals Message :=
  match a with
  | ASwitchToSession sessionId => switchToSession sessionId st
  | ASetSessionMessages sessionId msgs pag => setSessionMessages sessionId msgs pag st
  | APrependSessionMessages sessionId msgs pag =>
      prependSessionMessages sessionId msgs pag st
  | AUpdatePagination sessionId pag => updatePagination sessionId pag st
  | AClearSession sessionId => clearSession sessionId st
  | AClearAllSessions => clearAllSessions st
  end.

Definition performAll (actions : list Action) (st : Signals Message) : Signals Message :=
  fold_left perform actions st.

(** The session id an action stores messages under, if it stores any. *)
Definition storedId (a : Action) : option string :=
  match a with
  | ASetSessionMessages sessionId _ _ => Some sessionId
  | APrependSessionMessages sessionId _ _ => Some sessionId
  | _ => None
  end.

(** No id is listed twice in [accessOrder], and every cached session is
    listed. *)
Definition tracked (st : Signals Message) : Prop :=
  NoDup (accessOrder st)
  ∧ ∀ k, is_Some (sessionCache st !! k) -> k ∈ accessOrder st.

End ops.
Arguments Action : clear implicits.
End SessionSignalsOps.

(** ** Counting requests and answers along a run of the arbiter *)

Module ArbiterTrace.
Import ClaudeSDK.
Section trace.
Context {Input Suggestion : Type}.

Definition isResolved (s : Settlement Input Suggestion) : bool :=
  match s with
  | Resolved _ => true
  | Rejected _ => false
  end.

(** The answers (calls of [resolve]) given to a request id so far. *)
Definition answersOf (requestId : string) (st : Arbiter Input Suggestion)
    : list (string * Settlement Input Suggestion) :=
  filter (λ c, isResolved c.2 = true) (callsFor requestId st).

Definition registers (requestId : string) (ev : ArbiterEvent Input Suggestion) : bool :=
  match ev with
  | EvCanUseTool _ rid _ _ => bool_decide (rid = requestId)
  | _ => false
  end.

(** The events of a run that register a request under the id. *)
Definition registrationsOf (requestId : string)
    (evs : list (ArbiterEvent Input Suggestion)) : list (ArbiterEvent Input Suggestion) :=
  filter (λ ev, registers requestId ev = true) evs.

(** 1 while a request is pending under the id, else 0. *)
Definition pendingCount (requestId : string) (st : Arbiter Input Suggestion) : nat :=
  match JSMap.get requestId (pendingPermissionRequests st) with
  | Some _ => 1
  | None => 0
  end.

(** One entry per request id, and the answers and the pending entry of an id
    together do not exceed [n]. *)
Definition balanced (requestId : string) (st : Arbiter Input Suggestion) (n : nat)
    : Prop :=
  JSMap.wf (pendingPermissionRequests st)
  ∧ length (answersOf requestId st) + pendingCount requestId st <= n.

End trace.
End ArbiterTrace.

(** ** stores/projectSignals.js: projects and their session lists *)

Module ProjectSignals.
Section projects.
(** Sessions and the further fields of a project are opaque here. *)
Context {Session Info : Type}.

Record Project := {
  name : string;
  info : Info;
}.

Record SessionMeta := {
  metaHasMore : bool;
  metaTotal : nat;
}.

(** An entry of [projectSessions]; [meta] is missing for an entry that was
    only ever marked as loading. *)
Record ProjectSessions := {
  sessions : list Session;
  cursorSessions : list Session;
  meta : option SessionMeta;
  loaded : bool;
  loading : bool;
}.

(** The argument of [setProjectSessions]. *)
Record SessionsData := {
  dataSessions : option (list Session);
  dataCursorSessions : option (list Session);
  dataMeta : option SessionMeta;
}.

Record ProjectState := {
  projects : list Project;
  projectSessions : gmap string ProjectSessions;
}.

(** An element of [projectsWithSessions]. *)
Record ProjectView := {
  viewProject : Project;
  viewSessions : list Session;
  viewCursorSessions : list Session;
  sessionsLoaded : bool;
  sessionsLoading : bool;
  sessionMeta : SessionMeta;
}.

Definition defaultMeta : SessionMeta := {| metaHasMore := false; metaTotal := 0 |}.

Definition viewOf (st : ProjectState) (p : Project) : ProjectView :=
  let sessionData := projectSessions st !! name p in
  {| viewProject := p;
     viewSessions := default [] (sessions <$> sessionData);
     viewCursorSessions := default [] (cursorSessions <$> sessionData);
     sessionsLoaded := default false (loaded <$> sessionData);
     sessionsLoading := default false (loading <$> sessionData);
     sessionMeta := default defaultMeta (sessionData ≫= meta) |}.

Definition projectsWithSessions (st : ProjectState) : list ProjectView :=
  viewOf st <$> projects st.

Definition setProjects (list : list Project) (st : ProjectState) : ProjectState :=
  {| projects := list; projectSessions := projectSessions st |}.

Definition setProjectSessions (projectName : string) (data : SessionsData)
    (st : ProjectState) : ProjectState :=
  {| projects := projects st;
     projectSessions :=
       <[ projectName :=
            {| sessions := JS.or_array (dataSessions data);
               cursorSessions := JS.or_array (dataCursorSessions data);
               meta := Some (JS.nullish (dataMeta data) defaultMeta);
               loaded := true;
               loading := false |} ]> (projectSessions st) |}.

Definition setProjectSessionsLoading (projectName : string) (st : ProjectState)
    : ProjectState :=
  let existing := projectSessions st !! projectName in
  {| projects := projects st;
     projectSessions :=
       <[ projectName :=
            {| sessions := default [] (sessions <$> existing);
               cursorSessions := default [] (cursorSessions <$> existing);
               meta := existing ≫= meta;
               loaded := false;
               loading := true |} ]> (projectSessions st) |}.

End projects.
Arguments Project : clear implicits.
Arguments ProjectSessions : clear implicits.
Arguments SessionsData : clear implicits.
Arguments ProjectState : clear implicits.
Arguments ProjectView : clear implicits.
End ProjectSignals.

(** ** components/MessagesView.jsx: helpers of the session list *)

Module MessagesView.

(** [truncateText(text, maxLength = 80)] *)
Definition truncateText (text : option string) (maxLength : option nat) : string :=
  let maxLength := JS.nullish maxLength 80 in
  match text with
  | None => ""
  | Some t =>
      if JS.truthy t then
        if (String.length t <=? maxLength)%nat then t
        else substring 0 maxLength t +:+ "..."
      else ""
  end.

Section groups.
Context {S : Type}.

Record Groups := {
  today : list S;
  yesterday : list S;
  thisWeek : list S;
  earlier : list S;
}.

(** The body of the [forEach] of [groupByTimePeriod].  [date] gives the time
    value of [new Date(session.lastActivity)], [None] for an invalid date,
    which compares false with everything; the three bounds are the time
    values of the local midnights the source derives from [currentTime]. *)
Definition pushSession (date : S -> option Z) (todayStart yesterdayStart weekStart : Z)
    (groups : Groups) (session : S) : Groups :=
  let atLeast bound :=
    match date session with
    | Some d => (bound <=? d)%Z
    | None => false
    end in
  if atLeast todayStart then
    {| today := today groups ++ [session]; yesterday := yesterday groups;
       thisWeek := thisWeek groups; earlier := earlier groups |}
  else if atLeast yesterdayStart then
    {| today := today groups; yesterday := yesterday groups ++ [session];
       thisWeek := thisWeek groups; earlier := earlier groups |}
  else if atLeast weekStart then
    {| today := today groups; yesterday := yesterday groups;
       thisWeek := thisWeek groups ++ [session]; earlier := earlier groups |}
  else
    {| today := today groups; yesterday := yesterday groups;
       thisWeek := thisWeek groups; earlier := earlier groups ++ [session] |}.

Definition groupByTimePeriod (date : S -> option Z)
    (todayStart yesterdayStart weekStart : Z) (sessions : list S) : Groups :=
  fold_left (pushSession date todayStart yesterdayStart weekStart) sessions
    {| today := []; yesterday := []; thisWeek := []; earlier := [] |}.

(** The group a session belongs to: 0 today, 1 yesterday, 2 this week,
    3 earlier. *)
Definition periodOf (date : S -> option Z) (todayStart yesterdayStart weekStart : Z)
    (session : S) : nat :=
  match date session with
  | Some d =>
      if (todayStart <=? d)%Z then 0
      else if (yesterdayStart <=? d)%Z then 1
      else if (weekStart <=? d)%Z then 2 else 3
  | None => 3
  end.

End groups.
Arguments Groups : clear implicits.
End MessagesView.

(** ** Concrete scenarios used to exercise the model *)

Module Scenarios.
Import ClaudeSDK.

Definition writeRequest : Metadata string string :=
  {| toolName := "Write"; input := "file_path=/tmp/a.txt";
     suggestions := Some ["addRules:session"]; toolUseID := "toolu_01" |}.

Definition bashRequest : Metadata string string :=
  {| toolName := "Bash"; input := "command=ls";
     suggestions := None; toolUseID := "toolu_02" |}.

(** One session asks for two tools before the user answers. *)
Definition twoRequestsOneSession : list (ArbiterEvent string string) :=
  [ EvCanUseTool "sessionA" "perm_1" writeRequest 1000;
    EvCanUseTool "sessionA" "perm_2" bashRequest 200000 ].

Definition twoPending : Arbiter string string := runArbiter twoRequestsOneSession.

Definition allowAlways : Response string :=
  {| behavior := "allow"; message := None;
     updatedPermissions := Some ["addRules:localSettings"]; interrupt := None |}.

Definition denyQuietly : Response string :=
  {| behavior := "deny"; message := None;
     updatedPermissions := None; interrupt := Some false |}.

(** A running session with one staged image. *)
Definition stagedImage : string := "/proj/.tmp/images/1700/image_0.png".
Definition stagedDir : string := "/proj/.tmp/images/1700".

Definition oneRunningSession : Sessions :=
  addSession "abc123" 5 [stagedImage] (Some stagedDir)
    {| activeSessions := []; fileSystem := {[ stagedImage; stagedDir ]} |}.

(** Two new conversations started one after the other. *)
Definition twoPlaceholders : list string :=
  App.markSessionActive "new-session-1001"
    (App.markSessionActive "new-session-1000" []).

Definition pendingWrite : ChatInterface.ChatMessage :=
  {| ChatInterface.isPermissionRequest := true;
     ChatInterface.permissionResolved := false;
     ChatInterface.content := "Write /tmp/a.txt" |}.

Definition assistantText : ChatInterface.ChatMessage :=
  {| ChatInterface.isPermissionRequest := false;
     ChatInterface.permissionResolved := false;
     ChatInterface.content := "hi" |}.

(** The signal cache after loading and viewing session [s0] and loading
    nine more sessions in the background. *)
Definition tenLoaded : SessionSignals.Signals string :=
  let load id st := SessionSignals.setSessionMessages id [id] noPagination st in
  let st0 := SessionSignals.switchToSession "s0" (load "s0" SessionSignals.emptySignals) in
  fold_left (λ st id, load id st)
    ["s1"; "s2"; "s3"; "s4"; "s5"; "s6"; "s7"; "s8"; "s9"] st0.

(** The same cache once an eleventh session is stored and marked as most
    recently used, right before the eviction check runs. *)
Definition elevenBeforeEviction : SessionSignals.Signals string :=
  SessionSignals.updateAccessOrder "s10"
    (SessionSignals.storeSessionMessages "s10" ["s10"] noPagination tenLoaded).

(** The zustand store driven the same way. *)
Definition tenLoadedStore : SessionStore.Store string :=
  let load id st := SessionStore.setSessionMessages id (Some [id]) noPagination 0 st in
  let st0 := SessionStore.switchSession (Some "s0") (load "s0" SessionStore.emptyStore) in
  fold_left (λ st id, load id st)
    ["s1"; "s2"; "s3"; "s4"; "s5"; "s6"; "s7"; "s8"; "s9"] st0.

(** The zustand store after two sessions were viewed without being loaded
    and eleven others were stored, right before the eviction check runs. *)
Definition elevenAndTwoViewedStore : SessionStore.Store string :=
  let load id st := SessionStore.setSessionMessages id (Some [id]) noPagination 0 st in
  let st0 := SessionStore.switchSession (Some "b")
               (SessionStore.switchSession (Some "a") SessionStore.emptyStore) in
  SessionStore._updateAccessOrder "s10"
    (SessionStore.storeSessionMessages "s10" (Some ["s10"]) noPagination 0
       (fold_left (λ st id, load id st)
          ["s0"; "s1"; "s2"; "s3"; "s4"; "s5"; "s6"; "s7"; "s8"; "s9"] st0)).

(** The zustand store of [tenLoadedStore] once an eleventh session is stored,
    right before the eviction check runs. *)
Definition elevenBeforeEvictionStore : SessionStore.Store string :=
  SessionStore._updateAccessOrder "s10"
    (SessionStore.storeSessionMessages "s10" (Some ["s10"]) noPagination 0 tenLoadedStore).

(** The zustand store after older messages were prepended for ten sessions
    that had not been loaded: ten cached entries, none of them listed in
    [accessOrder]. *)
Definition tenPrependedStore : SessionStore.Store string :=
  fold_left
    (λ st id, SessionStore.prependSessionMessages id (Some [id]) noPagination 0 st)
    ["s1"; "s2"; "s3"; "s4"; "s5"; "s6"; "s7"; "s8"; "s9"; "s10"]
    SessionStore.emptyStore.

(** The signal cache driven the same way. *)
Definition tenPrepended : SessionSignals.Signals string :=
  fold_left
    (λ st id, SessionSignals.prependSessionMessages id [id] noPagination st)
    ["s1"; "s2"; "s3"; "s4"; "s5"; "s6"; "s7"; "s8"; "s9"; "s10"]
    SessionSignals.emptySignals.

End Scenarios.

(** * Properties *)

(** ** Facts about the JavaScript primitives *)

Module JSFacts.
Import JS.

Lemma truthy_true s : truthy s = true <-> s <> "".
Proof.
  unfold truthy. rewrite negb_true_iff. split.
  - intros H ->. by rewrite String.eqb_refl in H.
  - intros H. by apply String.eqb_neq.
Qed.

End JSFacts.

Module ListFacts.

Lemma filter_none {A} (P : A -> Prop) `{!∀ x, Decision (P x)} (l : list A) :
  (∀ x, x ∈ l -> ¬ P x) -> filter P l = [].
Proof.
  induction l as [|a l IH]; intros Hall; [done|].
  rewrite filter_cons, decide_False by (apply Hall; left).
  apply IH. intros x Hx. apply Hall. by right.
Qed.

Lemma filter_all {A} (P : A -> Prop) `{!∀ x, Decision (P x)} (l : list A) :
  (∀ x, x ∈ l -> P x) -> filter P l = l.
Proof.
  induction l as [|a l IH]; intros Hall; [done|].
  rewrite filter_cons, decide_True by (apply Hall; left).
  f_equal. apply IH. intros x Hx. apply Hall. by right.
Qed.

End ListFacts.

Module JSMapFacts.
Import JSMap.
Section facts.
Context {V : Type}.
Implicit Types (m : list (string * V)) (k : string) (v : V).

Lemma get_None k m : get k m = None <-> k ∉ keys m.
Proof.
  induction m as [|[k' v] r IH]; simpl.
  - split; [intros _; apply not_elem_of_nil | done].
  - case_decide as E.
    + subst. split; [done | intros H; exfalso; apply H; left].
    + rewrite IH, not_elem_of_cons. split; [by intros ?; split | by intros [_ ?]].
Qed.

Lemma get_Some_elem k v m : get k m = Some v -> (k, v) ∈ m.
Proof.
  induction m as [|[k' v'] r IH]; simpl; [done|].
  case_decide as E.
  - intros [= ->]. subst. left.
  - intros H. right. by apply IH.
Qed.

Lemma elem_get k v m : wf m -> (k, v) ∈ m -> get k m = Some v.
Proof.
  unfold wf, keys. induction m as [|[k' v'] r IH]; simpl.
  - intros _ H. by apply elem_of_nil in H.
  - intros Hnd Hin. apply NoDup_cons in Hnd as [Hk Hnd].
    apply elem_of_cons in Hin as [[= -> ->]|Hin].
    + by rewrite decide_True.
    + case_decide as E; [|by apply IH].
      subst. exfalso. apply Hk.
      apply list_elem_of_fmap. by exists (k, v).
Qed.

Lemma delete_absent k m : get k m = None -> delete k m = m.
Proof.
  induction m as [|[k' v] r IH]; simpl; [done|].
  case_decide as E; [done|]. intros Hg. by rewrite IH.
Qed.

Lemma get_delete_eq k m : get k (delete k m) = None.
Proof.
  induction m as [|[k' v] r IH]; simpl; [done|].
  case_decide as E; [done|]. simpl. by rewrite decide_False.
Qed.

Lemma get_delete_ne k k' m : k <> k' -> get k' (delete k m) = get k' m.
Proof.
  intros Hne. induction m as [|[k0 v] r IH]; simpl; [done|].
  case_decide as E.
  - subst. by rewrite decide_False.
  - simpl. by rewrite IH.
Qed.

Lemma get_set_eq k v m : get k (set k v m) = Some v.
Proof.
  induction m as [|[k' v'] r IH]; simpl.
  - by rewrite decide_True.
  - case_decide as E; simpl.
    + by rewrite decide_True.
    + by rewrite decide_False.
Qed.

Lemma get_set_ne k k' v m : k <> k' -> get k' (set k v m) = get k' m.
Proof.
  intros Hne. induction m as [|[k0 v0] r IH]; simpl.
  - by rewrite decide_False.
  - case_decide as E; simpl.
    + subst. by rewrite !decide_False.
    + by rewrite IH.
Qed.

Lemma keys_delete k m : keys (delete k m) = filter (λ x, x <> k) (keys m).
Proof.
  unfold keys. induction m as [|[k' v] r IH]; [done|].
  cbn [delete]. rewrite fmap_cons, filter_cons. cbn [fst].
  destruct (decide (k' = k)) as [E|E].
  - rewrite decide_False by (intros ?; done). apply IH.
  - rewrite decide_True by done. rewrite fmap_cons. cbn [fst]. by f_equal.
Qed.

Lemma wf_delete k m : wf m -> wf (delete k m).
Proof. unfold wf. rewrite keys_delete. apply NoDup_filter. Qed.

Lemma keys_set k v m :
  keys (set k v m) = if decide (k ∈ keys m) then keys m else keys m ++ [k].
Proof.
  unfold keys. induction m as [|[k' v'] r IH].
  - cbn. rewrite decide_False; [done | apply not_elem_of_nil].
  - cbn [set]. rewrite fmap_cons. cbn [fst].
    destruct (decide (k' = k)) as [E|E].
    + subst. rewrite decide_True by left. by rewrite fmap_cons.
    + rewrite fmap_cons, IH. cbn [fst].
      destruct (decide (k ∈ r.*1)) as [Hin|Hin].
      * rewrite decide_True; [done | by right].
      * rewrite decide_False; [done|].
        rewrite not_elem_of_cons. split; [congruence | done].
Qed.

Lemma wf_set k v m : wf m -> wf (set k v m).
Proof.
  unfold wf. rewrite keys_set. case_decide as E; [done|].
  intros H. apply NoDup_app. split_and!; [done | | apply NoDup_singleton].
  intros x Hx Hk. apply list_elem_of_singleton in Hk. by subst.
Qed.

End facts.
End JSMapFacts.

(** ** The permission arbiter *)

Module ArbiterFacts.
Import ClaudeSDK.
Section facts.
Context {Input Suggestion : Type}.
Local Abbreviation Arbiter := (ClaudeSDK.Arbiter Input Suggestion).
Local Abbreviation PendingRequest := (ClaudeSDK.PendingRequest Input Suggestion).
Local Abbreviation Response := (ClaudeSDK.Response Suggestion).
Implicit Types (st : Arbiter) (m : list (string * PendingRequest)).

Lemma delete_app {V} k (a b : list (string * V)) :
  JSMap.delete k (a ++ b) = JSMap.delete k a ++ JSMap.delete k b.
Proof.
  induction a as [|[k' v] a IH]; [done|].
  cbn [app JSMap.delete]. case_decide; [done|]. cbn [app]. by f_equal.
Qed.

Lemma delete_middle {V} k (v : V) (kept r : list (string * V)) :
  JSMap.wf (kept ++ (k, v) :: r) ->
  JSMap.delete k (kept ++ (k, v) :: r) = kept ++ r.
Proof.
  unfold JSMap.wf, JSMap.keys. rewrite fmap_app, fmap_cons. cbn [fst].
  intros Hnd. apply NoDup_app in Hnd as (_ & Hdisj & Hr).
  apply NoDup_cons in Hr as [Hk _].
  rewrite delete_app. cbn [JSMap.delete]. rewrite decide_True by done.
  rewrite !JSMapFacts.delete_absent; [done | |].
  - by apply JSMapFacts.get_None.
  - apply JSMapFacts.get_None. intros Hin. apply (Hdisj _ Hin). left.
Qed.

Lemma wf_app_drop {V} (kept r : list (string * V)) e :
  JSMap.wf (kept ++ e :: r) -> JSMap.wf (kept ++ r).
Proof.
  unfold JSMap.wf, JSMap.keys. rewrite !fmap_app, fmap_cons.
  intros Hnd. apply NoDup_app in Hnd as (Hk & Hdisj & Hr).
  apply NoDup_cons in Hr as [_ Hr].
  apply NoDup_app. split_and!; [done | | done].
  intros x Hx Hxr. apply (Hdisj x Hx). by right.
Qed.

(** What the sweep computes: the entries within the threshold stay, in
    order, and every other entry is answered once, in order. *)
Lemma cleanup_fold now T (l kept : list (string * PendingRequest)) calls :
  JSMap.wf (kept ++ l) ->
  fold_left (cleanupEntry now T) l
    {| pendingPermissionRequests := kept ++ l; resolverCalls := calls |}
  = {| pendingPermissionRequests :=
         kept ++ filter (λ e, ¬ (now - timestamp e.2 > T)%Z) l;
       resolverCalls :=
         calls ++ ((λ e, (e.1, Resolved (@timedOutResult Input Suggestion)))
                     <$> filter (λ e, (now - timestamp e.2 > T)%Z) l) |}.
Proof.
  revert kept calls. induction l as [|[k req] r IH]; intros kept calls Hwf.
  - cbn [fold_left]. rewrite !filter_nil, fmap_nil. by rewrite !app_nil_r.
  - cbn [fold_left cleanupEntry pendingPermissionRequests resolverCalls].
    rewrite !filter_cons. cbn [snd fst].
    case_bool_decide as Hold.
    + rewrite delete_middle by done.
      rewrite IH by (by eapply wf_app_drop).
      rewrite decide_False by (intros Hn; by apply Hn).
      rewrite decide_True by done.
      rewrite fmap_cons. cbn [fst]. by rewrite <- app_assoc.
    + rewrite (cons_middle (k, req) kept r), app_assoc.
      rewrite IH by (by rewrite <- app_assoc).
      rewrite decide_True by done. rewrite decide_False by done.
      by rewrite <- app_assoc.
Qed.

Lemma cleanup_spec timeoutMs now st :
  JSMap.wf (pendingPermissionRequests st) ->
  let T := JS.nullish timeoutMs defaultTimeoutMs in
  cleanupTimedOutPermissions timeoutMs now st
  = {| pendingPermissionRequests :=
         filter (λ e, ¬ (now - timestamp e.2 > T)%Z) (pendingPermissionRequests st);
       resolverCalls :=
         resolverCalls st
         ++ ((λ e, (e.1, Resolved timedOutResult))
               <$> filter (λ e, (now - timestamp e.2 > T)%Z)
                     (pendingPermissionRequests st)) |}.
Proof.
  intros Hwf T. unfold cleanupTimedOutPermissions. fold T.
  destruct st as [m calls]. cbn [pendingPermissionRequests resolverCalls] in *.
  apply (cleanup_fold now T m [] calls Hwf).
Qed.

Lemma get_filter (P : string * PendingRequest -> Prop) `{!∀ e, Decision (P e)}
    k req m :
  JSMap.wf m -> JSMap.get k m = Some req ->
  JSMap.get k (filter P m) = if decide (P (k, req)) then Some req else None.
Proof.
  unfold JSMap.wf, JSMap.keys.
  induction m as [|[k' v] r IH]; [done|].
  rewrite fmap_cons. cbn [fst]. intros [Hk Hnd]%NoDup_cons.
  cbn [JSMap.get]. rewrite filter_cons. destruct (decide (k' = k)) as [E|E].
  - intros [= ->]. subst k'. destruct (decide (P (k, req))).
    + cbn [JSMap.get]. by rewrite decide_True.
    + apply JSMapFacts.get_None. intros Hin. apply Hk.
      unfold JSMap.keys in Hin.
      apply list_elem_of_fmap in Hin as (y & -> & Hy).
      apply list_elem_of_filter in Hy as [_ Hy].
      apply list_elem_of_fmap. by exists y.
  - intros Hget. destruct (decide (P (k', v))).
    + cbn [JSMap.get]. rewrite decide_False by done. by apply IH.
    + by apply IH.
Qed.

Lemma calls_of_filter (P : string * PendingRequest -> Prop)
    `{!∀ e, Decision (P e)} (s : ClaudeSDK.Settlement Input Suggestion) k req m :
  JSMap.wf m -> JSMap.get k m = Some req ->
  filter (λ c, c.1 = k) ((λ e, (e.1, s)) <$> filter P m)
  = if decide (P (k, req)) then [(k, s)] else [].
Proof.
  unfold JSMap.wf, JSMap.keys.
  induction m as [|[k' v] r IH]; [done|].
  rewrite fmap_cons. cbn [fst]. intros [Hk Hnd]%NoDup_cons.
  cbn [JSMap.get]. rewrite filter_cons.
  assert (Hnone : ∀ x, x ∉ r.*1 ->
            filter (λ c : string * _, c.1 = x) ((λ e, (e.1, s)) <$> filter P r) = []).
  { intros x Hx. apply ListFacts.filter_none. intros [a b] Hin Hc. cbn in Hc. subst a.
    apply list_elem_of_fmap in Hin as (y & [= -> ->] & Hy).
    apply list_elem_of_filter in Hy as [_ Hy].
    apply Hx. apply list_elem_of_fmap. by exists y. }
  destruct (decide (k' = k)) as [E|E].
  - intros [= ->]. subst k'. destruct (decide (P (k, req))).
    + rewrite fmap_cons, filter_cons. cbn [fst].
      rewrite decide_True by done. by rewrite Hnone.
    + by apply Hnone.
  - intros Hget. destruct (decide (P (k', v))).
    + rewrite fmap_cons, filter_cons. cbn [fst].
      rewrite decide_False by done. by apply IH.
    + by apply IH.
Qed.

Lemma register_get requestId meta now st :
  JSMap.get requestId
    (pendingPermissionRequests (registerPermissionRequest requestId meta now st))
  = Some {| metadata := meta; timestamp := now |}.
Proof. apply JSMapFacts.get_set_eq. Qed.

Lemma resolve_removes requestId response st :
  JSMap.get requestId
    (pendingPermissionRequests (resolvePermissionRequest requestId response st).2)
  = None.
Proof.
  unfold resolvePermissionRequest.
  destruct (JSMap.get requestId (pendingPermissionRequests st)) eqn:Hget; cbn.
  - apply JSMapFacts.get_delete_eq.
  - done.
Qed.

(** C5: when the timeout sweep runs, a pending request older than the
    threshold (five minutes unless given) is answered exactly once, with
    deny, interrupt = false and the timeout message, and is gone from the
    pending map afterwards; a request within the threshold stays pending
    and is not answered. *)
Theorem timeout_sweep_denies_expired timeoutMs now st requestId request :
  JSMap.wf (pendingPermissionRequests st) ->
  JSMap.get requestId (pendingPermissionRequests st) = Some request ->
  let T := JS.nullish timeoutMs defaultTimeoutMs in
  let st' := cleanupTimedOutPermissions timeoutMs now st in
  ((now - timestamp request > T)%Z ->
     JSMap.get requestId (pendingPermissionRequests st') = None
     ∧ callsFor requestId st'
       = callsFor requestId st
         ++ [(requestId,
              Resolved (ResultDeny "Permission request timed out" false))])
  ∧ ((now - timestamp request <= T)%Z ->
     JSMap.get requestId (pendingPermissionRequests st') = Some request
     ∧ callsFor requestId st' = callsFor requestId st).
Proof.
  intros Hwf Hget T st'. subst st'. rewrite cleanup_spec by done. fold T.
  unfold callsFor. cbn [pendingPermissionRequests resolverCalls].
  rewrite filter_app.
  rewrite (get_filter _ _ _ _ Hwf Hget).
  rewrite (calls_of_filter _ _ _ _ _ Hwf Hget).
  cbn [snd]. split; intros Hage.
  - rewrite decide_False by (intros Hn; by apply Hn).
    by rewrite decide_True by done.
  - rewrite decide_True by lia. rewrite decide_False by lia.
    by rewrite app_nil_r.
Qed.

(** C8: resolving a request id that is not pending returns [false] and
    leaves the arbiter state as it was; in particular a second resolve of
    an id that was just resolved finds nothing. *)
Theorem resolve_unknown_is_noop requestId response st :
  (JSMap.get requestId (pendingPermissionRequests st) = None ->
   resolvePermissionRequest requestId response st = (false, st))
  ∧ (∀ response',
       let st1 := (resolvePermissionRequest requestId response st).2 in
       resolvePermissionRequest requestId response' st1 = (false, st1)).
Proof.
  split.
  - intros Hget. unfold resolvePermissionRequest. by rewrite Hget.
  - intros response' st1. unfold resolvePermissionRequest at 1.
    subst st1. by rewrite resolve_removes.
Qed.

(** C10: an allow answer to a pending request hands the SDK the input
    stored with the request, unchanged, together with the permissions of
    the answer (none when the answer carries none). *)
Theorem allow_returns_stored_input requestId response st pending :
  JSMap.get requestId (pendingPermissionRequests st) = Some pending ->
  behavior response = "allow" ->
  resolvePermissionRequest requestId response st
  = (true,
     {| pendingPermissionRequests :=
          JSMap.delete requestId (pendingPermissionRequests st);
        resolverCalls :=
          resolverCalls st
          ++ [(requestId,
               Resolved (ResultAllow (input (metadata pending))
                           (JS.or_array (updatedPermissions response))))] |}).
Proof.
  intros Hget Hallow. unfold resolvePermissionRequest, buildPermissionResult.
  by rewrite Hget, Hallow.
Qed.

(** C7 (amended): pending requests are tracked by request id alone, with
    no limit per session; answering one request, or registering a new one,
    leaves every other pending entry and its answers untouched. *)
Theorem requests_do_not_interfere requestId other response st :
  other <> requestId ->
  let st' := (resolvePermissionRequest requestId response st).2 in
  JSMap.get other (pendingPermissionRequests st')
  = JSMap.get other (pendingPermissionRequests st)
  ∧ callsFor other st' = callsFor other st
  ∧ ∀ meta now,
      JSMap.get other (pendingPermissionRequests (canUseTool requestId meta now st).1)
      = JSMap.get other (pendingPermissionRequests st).
Proof.
  intros Hne st'. subst st'. unfold resolvePermissionRequest, callsFor.
  split_and!.
  - destruct (JSMap.get requestId _); cbn; [|done].
    by apply JSMapFacts.get_delete_ne.
  - destruct (JSMap.get requestId _); cbn; [|done].
    rewrite filter_app, filter_cons, filter_nil. cbn [fst].
    rewrite decide_False by done. by rewrite app_nil_r.
  - intros meta now. cbn. by apply JSMapFacts.get_set_ne.
Qed.

End facts.
End ArbiterFacts.

Module ArbiterExamples.
Import ClaudeSDK Scenarios.

Lemma twoPending_wf : JSMap.wf (pendingPermissionRequests twoPending).
Proof. apply (bool_decide_unpack _). vm_compute. reflexivity. Qed.

Lemma timeout_sweep_witness :
  let st' := cleanupTimedOutPermissions None 301001 twoPending in
  (JSMap.get "perm_1" (pendingPermissionRequests st') = None
   ∧ callsFor "perm_1" st'
     = [("perm_1", Resolved (ResultDeny "Permission request timed out" false))])
  ∧ (JSMap.get "perm_2" (pendingPermissionRequests st')
     = Some {| metadata := bashRequest; timestamp := 200000 |}
     ∧ callsFor "perm_2" st' = []).
Proof.
  split.
  - apply (ArbiterFacts.timeout_sweep_denies_expired None 301001 twoPending
             "perm_1" {| metadata := writeRequest; timestamp := 1000 |}
             twoPending_wf eq_refl).
    vm_compute. reflexivity.
  - apply (ArbiterFacts.timeout_sweep_denies_expired None 301001 twoPending
             "perm_2" {| metadata := bashRequest; timestamp := 200000 |}
             twoPending_wf eq_refl).
    vm_compute. discriminate.
Defined.

Lemma resolve_unknown_witness :
  resolvePermissionRequest "perm_9" allowAlways twoPending = (false, twoPending)
  ∧ (let st1 := (resolvePermissionRequest "perm_1" allowAlways twoPending).2 in
     resolvePermissionRequest "perm_1" denyQuietly st1 = (false, st1)).
Proof.
  split.
  - apply (proj1 (ArbiterFacts.resolve_unknown_is_noop "perm_9" allowAlways twoPending)).
    reflexivity.
  - apply (proj2 (ArbiterFacts.resolve_unknown_is_noop "perm_1" allowAlways twoPending)).
Defined.

Lemma allow_returns_stored_input_witness :
  (resolvePermissionRequest "perm_1" allowAlways twoPending).2.(resolverCalls)
  = [("perm_1",
      Resolved (ResultAllow "file_path=/tmp/a.txt" ["addRules:localSettings"]))].
Proof.
  rewrite (ArbiterFacts.allow_returns_stored_input "perm_1" allowAlways twoPending
             {| metadata := writeRequest; timestamp := 1000 |} eq_refl eq_refl).
  reflexivity.
Defined.

Lemma requests_do_not_interfere_witness :
  JSMap.get "perm_2"
    (pendingPermissionRequests (resolvePermissionRequest "perm_1" denyQuietly twoPending).2)
  = Some {| metadata := bashRequest; timestamp := 200000 |}.
Proof.
  destruct (ArbiterFacts.requests_do_not_interfere "perm_1" "perm_2" denyQuietly
              twoPending ltac:(discriminate)) as [-> _].
  reflexivity.
Defined.

(** The arbiter does not keep a session to one unresolved request: two
    requests of the same session are pending together. *)
Lemma two_unresolved_requests_one_session :
  ¬ (∀ (evs : list (ArbiterEvent string string)) (session : string),
       length (unresolvedOf session evs) <= 1).
Proof.
  intros H. specialize (H twoRequestsOneSession "sessionA").
  vm_compute in H. lia.
Qed.

End ArbiterExamples.

(** ** Replacing temporary session ids *)

Module IdentityFacts.
Import App ChatInterface.

Lemma set_add_fresh x s : x ∉ s -> JSSet.add x s = s ++ [x].
Proof. intros H. unfold JSSet.add. by rewrite decide_False. Qed.

Lemma temporary_differs p r : isTemporary p = true -> isTemporary r = false -> r <> p.
Proof. intros Hp Hr ->. congruence. Qed.

(** Two placeholders registered one after the other are kept in that order. *)
Lemma two_placeholders p1 p2 :
  p1 <> p2 -> markSessionActive p2 (markSessionActive p1 []) = [p1; p2].
Proof.
  intros Hne. unfold markSessionActive.
  rewrite (set_add_fresh p1 []) by apply not_elem_of_nil.
  rewrite set_add_fresh; [done|].
  intros Hin. apply list_elem_of_singleton in Hin. congruence.
Qed.

(** The loop always takes the oldest temporary id of the set. *)
Lemma replace_takes_oldest p rest r :
  isTemporary p = true -> p ∉ rest -> r ∉ rest ->
  replaceTemporarySession r (p :: rest) = (rest ++ [r], Some p).
Proof.
  intros Hp Hfresh Hr. unfold replaceTemporarySession.
  cbn [deleteFirstTemporary]. rewrite Hp. unfold JSSet.delete.
  rewrite filter_cons, decide_False by (intros Hn; by apply Hn).
  rewrite ListFacts.filter_all by (intros x Hx ->; done).
  by rewrite set_add_fresh.
Qed.

(** The loop takes the oldest temporary id of the set wherever it stands:
    ids that are not temporary are passed over, younger temporary ids are
    never looked at. *)
Lemma delete_first_oldest older p newer newSet :
  Forall (λ x, isTemporary x = false) older -> isTemporary p = true ->
  deleteFirstTemporary (older ++ p :: newer) newSet = (JSSet.delete p newSet, Some p).
Proof.
  intros Holder Hp. induction Holder as [|x older Hx _ IH];
    cbn [app deleteFirstTemporary].
  - by rewrite Hp.
  - by rewrite Hx.
Qed.

Lemma delete_first_none prev newSet :
  Forall (λ x, isTemporary x = false) prev ->
  deleteFirstTemporary prev newSet = (newSet, None).
Proof.
  induction 1 as [|x prev Hx _ IH]; cbn [deleteFirstTemporary]; [done|].
  by rewrite Hx.
Qed.

Lemma set_delete_absent x (s : list string) : x ∉ s -> JSSet.delete x s = s.
Proof. intros Hx. apply ListFacts.filter_all. intros y Hy ->. done. Qed.


Lemma set_delete_before_last x y (s : list string) :
  x ∉ s -> x <> y -> JSSet.delete x (s ++ [x; y]) = s ++ [y].
Proof.
  intros Hx Hne. unfold JSSet.delete.
  rewrite filter_app, !filter_cons, filter_nil.
  rewrite decide_False by (intros Hn; by apply Hn).
  rewrite decide_True by done.
  f_equal. by apply set_delete_absent.
Qed.

(** One rewrite on a set of real ids followed by a placeholder and one more
    id: the placeholder is the one replaced. *)
Lemma replace_among_real (active : list string) p next r :
  Forall (λ x, isTemporary x = false) active ->
  isTemporary p = true -> p <> next -> r ∉ active -> r <> next ->
  replaceTemporarySession r (active ++ [p; next]) = (active ++ [next; r], Some p).
Proof.
  intros Hactive Hp Hnext Hr Hrn. unfold replaceTemporarySession.
  rewrite (delete_first_oldest active p [next]) by done.
  assert (Hpa : p ∉ active).
  { intros Hin. rewrite Forall_forall in Hactive. apply Hactive in Hin. congruence. }
  rewrite set_delete_before_last by done.
  rewrite set_add_fresh.
  - by rewrite <- app_assoc.
  - rewrite elem_of_app, list_elem_of_singleton. tauto.
Qed.

(** C1 (amended): a session-created event carries only the real id, and
    [replaceTemporarySession] replaces the oldest temporary id still in the
    set, whatever the set holds: real ids before it are passed over and
    kept, temporary ids after it stay; a set without temporary id only
    gains the real id.  So with two placeholders [p1], [p2] started in
    that order beside any real sessions already active, rewrites delivered
    in the same order pair [p1] with [r1] and [p2] with [r2]; delivered in
    the opposite order they pair [p1] with [r2] and [p2] with [r1].  Either
    way the set ends up holding the two real ids in place of the two
    placeholders, and the view keeps the id delivered last as its pending
    id. *)
Theorem rewrite_replaces_oldest_placeholder p1 p2 r1 r2 (active : list string) :
  isTemporary p1 = true -> isTemporary p2 = true -> p1 <> p2 ->
  JS.truthy r1 = true -> JS.truthy r2 = true ->
  isTemporary r1 = false -> isTemporary r2 = false -> r1 <> r2 ->
  Forall (λ x, isTemporary x = false) active -> r1 ∉ active -> r2 ∉ active ->
  let started := markSessionActive p2 (markSessionActive p1 active) in
  (∀ older p newer r,
      Forall (λ x, isTemporary x = false) older -> isTemporary p = true ->
      replaceTemporarySession r (older ++ p :: newer)
      = (JSSet.add r (JSSet.delete p (older ++ p :: newer)), Some p))
  ∧ (∀ prev r,
      Forall (λ x, isTemporary x = false) prev ->
      replaceTemporarySession r prev = (JSSet.add r prev, None))
  ∧ deliverSessionCreated [r1; r2] newConversation started
    = ({| currentSessionId := None; pendingSessionId := Some r2 |},
       active ++ [r1; r2], [(Some p1, r1); (Some p2, r2)])
  ∧ deliverSessionCreated [r2; r1] newConversation started
    = ({| currentSessionId := None; pendingSessionId := Some r1 |},
       active ++ [r2; r1], [(Some p1, r2); (Some p2, r1)]).
Proof.
  intros Hp1 Hp2 Hp Ht1 Ht2 Hr1 Hr2 Hr Hactive Hf1 Hf2 started.
  assert (Hreal : ∀ p, isTemporary p = true -> p ∉ active).
  { intros p Htmp Hin. rewrite Forall_forall in Hactive.
    apply Hactive in Hin. congruence. }
  assert (Hstarted : started = active ++ [p1; p2]).
  { subst started. unfold markSessionActive.
    rewrite (set_add_fresh p1 active) by auto.
    rewrite set_add_fresh, <- app_assoc; [done|].
    rewrite elem_of_app, list_elem_of_singleton.
    intros [Hin | ->]; [by apply (Hreal p2) | done]. }
  pose proof (temporary_differs _ _ Hp2 Hr1) as H12.
  pose proof (temporary_differs _ _ Hp2 Hr2) as H22.
  assert (Hsnoc : ∀ a, isTemporary a = false ->
            Forall (λ x, isTemporary x = false) (active ++ [a])).
  { intros a Ha. apply Forall_app. split; [done|]. by apply Forall_singleton. }
  assert (Hnotin : ∀ a b, a ∉ active -> a <> b -> a ∉ active ++ [b]).
  { intros a b Ha Hab. rewrite elem_of_app, list_elem_of_singleton. tauto. }
  split_and!.
  - intros older p newer r Holder Htmp. unfold replaceTemporarySession.
    by rewrite delete_first_oldest.
  - intros prev r Hprev. unfold replaceTemporarySession.
    by rewrite delete_first_none.
  - rewrite Hstarted.
    unfold deliverSessionCreated, onSessionCreated, newConversation.
    cbn [currentSessionId pendingSessionId JS.truthy_opt negb].
    rewrite Ht1, Ht2. cbn [andb].
    rewrite (replace_among_real active p1 p2 r1) by auto.
    replace (active ++ [p2; r1]) with ((active ++ []) ++ [p2; r1])
      by (by rewrite app_nil_r).
    rewrite app_nil_r.
    rewrite (replace_among_real active p2 r1 r2) by auto. done.
  - rewrite Hstarted.
    unfold deliverSessionCreated, onSessionCreated, newConversation.
    cbn [currentSessionId pendingSessionId JS.truthy_opt negb].
    rewrite Ht1, Ht2. cbn [andb].
    rewrite (replace_among_real active p1 p2 r2) by auto.
    rewrite (replace_among_real active p2 r2 r1) by auto. done.
Qed.

Lemma rewrite_replaces_oldest_placeholder_witness :
  deliverSessionCreated ["xyz789"; "abc123"] newConversation
    (markSessionActive "new-session-1001"
       (markSessionActive "new-session-1000" ["def456"]))
  = ({| currentSessionId := None; pendingSessionId := Some "abc123" |},
     ["def456"; "xyz789"; "abc123"],
     [(Some "new-session-1000", "xyz789"); (Some "new-session-1001", "abc123")]).
Proof.
  apply (rewrite_replaces_oldest_placeholder
           "new-session-1000" "new-session-1001" "abc123" "xyz789" ["def456"]);
    first [ reflexivity | discriminate
          | by repeat constructor
          | apply (bool_decide_unpack _); vm_compute; reflexivity ].
Defined.

(** The rewrite for the second conversation, arriving first, is not paired
    with the second placeholder. *)
Lemma out_of_order_rewrite_is_swapped :
  ¬ ((deliverSessionCreated ["xyz789"; "abc123"] newConversation
        Scenarios.twoPlaceholders).2
     = [(Some "new-session-1001", "xyz789"); (Some "new-session-1000", "abc123")]).
Proof. vm_compute. discriminate. Qed.

End IdentityFacts.

(** ** Routing of session-scoped messages *)

Module RoutingFacts.
Import ChatInterface RoutingSpec.

Lemma differs_from_some (a b : string) :
  bool_decide (Some a <> Some b) = negb (bool_decide (a = b)).
Proof.
  destruct (decide (a = b)) as [->|Hne].
  - rewrite bool_decide_eq_false_2 by (intros Hn; by apply Hn).
    by rewrite bool_decide_eq_true_2.
  - rewrite bool_decide_eq_true_2 by congruence.
    by rewrite bool_decide_eq_false_2.
Qed.

Lemma differs_from_none (a : string) : bool_decide (Some a <> None) = true.
Proof. by apply bool_decide_eq_true_2. Qed.

(** Messages that are global, or carry no session id, pass the filter. *)
Lemma unscoped_messages_pass isGlobalMessage messageSessionId v :
  isGlobalMessage = true ∨ JS.truthy_opt messageSessionId = false ->
  acceptsMessage isGlobalMessage messageSessionId v = true.
Proof.
  unfold acceptsMessage. intros [-> | ->]; [done|].
  by rewrite andb_false_r.
Qed.

(** C3: for a session-scoped message (not global, carrying a session id)
    the filter accepts exactly as the routing rule says: with a final id
    established, iff the ids are equal; else with a pending id known, iff
    the message carries that id; with neither, always. *)
Theorem filter_follows_routing_rule messageSessionId v :
  JS.truthy messageSessionId = true ->
  acceptsMessage false (Some messageSessionId) v
  = accepts (slotOf v) messageSessionId.
Proof.
  intros Hsid. unfold acceptsMessage, slotOf.
  cbn [negb andb JS.truthy_opt]. rewrite Hsid.
  destruct v as [[c|] [q|]]; cbn [currentSessionId pendingSessionId JS.truthy_opt];
    repeat match goal with
           | |- context [JS.truthy ?x] => destruct (JS.truthy x) eqn:?
           end;
    cbn [andb negb accepts];
    rewrite ?differs_from_some, ?differs_from_none;
    repeat match goal with
           | |- context [bool_decide ?P] => destruct (bool_decide P)
           end; reflexivity.
Qed.

Lemma filter_follows_routing_rule_witness :
  acceptsMessage false (Some "abc123")
    {| currentSessionId := None; pendingSessionId := Some "xyz789" |} = false.
Proof.
  rewrite (filter_follows_routing_rule "abc123"
             {| currentSessionId := None; pendingSessionId := Some "xyz789" |}
             eq_refl).
  reflexivity.
Defined.

End RoutingFacts.

(** ** Merging the transcript with live messages *)

Module SyncFacts.
Import ChatInterface.

Lemma sync_nonempty {Raw} (sessionMessages : list Raw) convertedMessages prev :
  sessionMessages <> [] ->
  syncChatMessages sessionMessages convertedMessages prev
  = convertedMessages ++ filter (λ m, isPendingPermission m = true) prev.
Proof.
  intros Hne. unfold syncChatMessages.
  destruct sessionMessages as [|x l]; [done|]. cbn [length Nat.ltb Nat.leb].
  destruct (filter _ prev) as [|m ms]; cbn; [by rewrite app_nil_r | done].
Qed.

Lemma sync_empty {Raw} convertedMessages prev :
  syncChatMessages (@nil Raw) convertedMessages prev = prev.
Proof. reflexivity. Qed.

(** C4 (amended): with a non-empty transcript the merge shows the converted
    transcript followed by the unresolved permission requests of the list
    displayed before; with an empty transcript it keeps the displayed list.
    Nothing is deduplicated, so the merge is idempotent when the converted
    transcript holds no unresolved permission request. *)
Theorem sync_idempotent_without_persisted_requests {Raw}
    (sessionMessages : list Raw) convertedMessages prev :
  (∀ m, m ∈ convertedMessages -> isPendingPermission m = false) ->
  let displayed := syncChatMessages sessionMessages convertedMessages prev in
  (sessionMessages <> [] ->
     displayed = convertedMessages ++ filter (λ m, isPendingPermission m = true) prev)
  ∧ (sessionMessages = [] -> displayed = prev)
  ∧ syncChatMessages sessionMessages convertedMessages displayed = displayed.
Proof.
  intros Hclean displayed. subst displayed. split_and!.
  - apply sync_nonempty.
  - intros ->. apply sync_empty.
  - destruct sessionMessages as [|x l]; [done|].
    rewrite !(sync_nonempty (x :: l)) by done.
    rewrite filter_app.
    rewrite (ListFacts.filter_none _ convertedMessages).
    + cbn [app]. f_equal. apply ListFacts.filter_all.
      intros m Hm. by apply list_elem_of_filter in Hm as [? _].
    + intros m Hm. rewrite (Hclean m Hm). discriminate.
Qed.

Lemma sync_idempotent_witness :
  let displayed :=
    syncChatMessages [tt] [Scenarios.assistantText] [Scenarios.pendingWrite] in
  displayed = [Scenarios.assistantText; Scenarios.pendingWrite]
  ∧ syncChatMessages [tt] [Scenarios.assistantText] displayed = displayed.
Proof.
  intros displayed.
  destruct (sync_idempotent_without_persisted_requests
              [tt] [Scenarios.assistantText] [Scenarios.pendingWrite])
    as (Hshape & _ & Hidem).
  - intros m Hm. apply list_elem_of_singleton in Hm. by subst m.
  - split; [apply Hshape; discriminate | apply Hidem].
Defined.

(** A permission request that is displayed live and also arrives in the
    transcript is shown twice, and every further merge adds one more. *)
Lemma sync_duplicates_persisted_request :
  let once :=
    syncChatMessages [tt] [Scenarios.pendingWrite] [Scenarios.pendingWrite] in
  once = [Scenarios.pendingWrite; Scenarios.pendingWrite]
  ∧ syncChatMessages [tt] [Scenarios.pendingWrite] once <> once.
Proof. vm_compute. split; [reflexivity | discriminate]. Qed.

End SyncFacts.

(** ** Aborting a session *)

Module AbortFacts.
Import ClaudeSDK.

Lemma unlink_all paths (fs : gset string) :
  fold_left (λ acc imagePath, unlink imagePath acc) paths fs
  = fs ∖ list_to_set paths.
Proof.
  revert fs. induction paths as [|p paths IH]; intros fs; cbn [fold_left].
  - rewrite list_to_set_nil. set_solver.
  - rewrite IH, list_to_set_cons. unfold unlink. set_solver.
Qed.

Lemma cleanup_shrinks paths dir (fs : gset string) :
  cleanupTempFiles paths dir fs ⊆ fs.
Proof.
  unfold cleanupTempFiles. destruct paths as [|p paths]; [done|].
  rewrite unlink_all.
  destruct dir as [d|]; [destruct (JS.truthy d)|]; unfold rmRecursive;
    intros x; rewrite ?elem_of_filter; set_solver.
Qed.

Lemma cleanup_removes_paths paths dir (fs : gset string) p :
  p ∈ paths -> p ∉ cleanupTempFiles paths dir fs.
Proof.
  intros Hp. unfold cleanupTempFiles.
  destruct paths as [|q paths]; [by apply elem_of_nil in Hp|].
  rewrite unlink_all.
  assert (Hgone : p ∉ fs ∖ list_to_set (C := gset string) (q :: paths)).
  { rewrite elem_of_difference, elem_of_list_to_set. tauto. }
  destruct dir as [d|]; [destruct (JS.truthy d)|]; [|done|done].
  unfold rmRecursive. rewrite elem_of_filter. tauto.
Qed.

Lemma cleanup_removes_dir paths d (fs : gset string) p :
  paths <> [] -> JS.truthy d = true -> under d p = true ->
  p ∉ cleanupTempFiles paths (Some d) fs.
Proof.
  intros Hne Hd Hp. unfold cleanupTempFiles.
  destruct paths as [|q paths]; [done|]. rewrite Hd.
  unfold rmRecursive. rewrite elem_of_filter. rewrite Hp. intros [? _]. done.
Qed.

(** C6 (amended): aborting a tracked session cleans up exactly when the
    remote interrupt call returns: the entry leaves the active-session map,
    the staged image files are removed, and with them the staging directory
    and all it holds, other sessions stay, and abort reports [true].  When
    the interrupt call throws, abort reports [false] and leaves the map and
    the files as they were. *)
Theorem abort_cleans_up_iff_interrupt_returns sessionId interrupted st session :
  getSession sessionId st = Some session ->
  let r := abortClaudeSDKSession sessionId interrupted st in
  match interrupted with
  | Returns =>
      r.1 = true
      ∧ getSession sessionId r.2 = None
      ∧ (∀ other, other <> sessionId -> getSession other r.2 = getSession other st)
      ∧ fileSystem r.2
        = cleanupTempFiles (tempImagePaths session) (tempDir session) (fileSystem st)
      ∧ (∀ p, p ∈ tempImagePaths session -> p ∉ fileSystem r.2)
      ∧ (∀ d p, tempImagePaths session <> [] -> tempDir session = Some d ->
                JS.truthy d = true -> under d p = true -> p ∉ fileSystem r.2)
  | Throws _ => r = (false, st)
  end.
Proof.
  intros Hget r. subst r. unfold abortClaudeSDKSession. rewrite Hget.
  destruct interrupted as [|e]; [|done].
  cbn [fst snd]. unfold getSession, removeSession, markAborted.
  cbn [activeSessions fileSystem]. split_and!.
  - done.
  - apply JSMapFacts.get_delete_eq.
  - intros other Hne.
    rewrite JSMapFacts.get_delete_ne by done.
    by rewrite JSMapFacts.get_set_ne by done.
  - done.
  - intros p Hp. by apply cleanup_removes_paths.
  - intros d p Hne -> Hd Hp. by apply cleanup_removes_dir.
Qed.

Lemma abort_cleans_up_witness :
  let r := abortClaudeSDKSession "abc123" Returns Scenarios.oneRunningSession in
  r.1 = true
  ∧ getSession "abc123" r.2 = None
  ∧ Scenarios.stagedImage ∉ fileSystem r.2.
Proof.
  intros r.
  destruct (abort_cleans_up_iff_interrupt_returns "abc123" Returns
              Scenarios.oneRunningSession
              {| startTime := 5; status := "active";
                 tempImagePaths := [Scenarios.stagedImage];
                 tempDir := Some Scenarios.stagedDir |} eq_refl)
    as (Hret & Hgone & _ & _ & Hfiles & _).
  split_and!; [exact Hret | exact Hgone |].
  apply Hfiles. cbn [tempImagePaths]. apply list_elem_of_singleton. reflexivity.
Defined.

(** When the interrupt call throws, the session stays tracked and its
    staged image stays on disk. *)
Lemma failed_interrupt_skips_cleanup :
  let r := abortClaudeSDKSession "abc123" (Throws "interrupt failed")
             Scenarios.oneRunningSession in
  r.1 = false
  ∧ getSession "abc123" r.2 <> None
  ∧ Scenarios.stagedImage ∈ fileSystem r.2.
Proof.
  intros r. subst r.
  change (abortClaudeSDKSession "abc123" (Throws "interrupt failed")
            Scenarios.oneRunningSession)
    with (false, Scenarios.oneRunningSession).
  cbn [fst snd]. split_and!; [done | by vm_compute |].
  unfold Scenarios.oneRunningSession, addSession. cbn [fileSystem]. set_solver.
Qed.

End AbortFacts.

(** ** The signal based session cache *)

Module SignalsFacts.
Import SessionSignals.
Section facts.
Context {Message : Type}.
Implicit Types (st : Signals Message).

Lemma evict_keeps_newest sessionId (e : CacheEntry Message) st older :
  sessionCache st !! sessionId = Some e ->
  accessOrder st = older ++ [sessionId] ->
  sessionId ∉ older ->
  sessionCache (evictIfNeeded st) !! sessionId = Some e.
Proof.
  intros Hget Horder Hfresh. unfold evictIfNeeded. rewrite Horder.
  destruct (length (older ++ [sessionId]) <=? MAX_CACHED_SESSIONS)%nat eqn:Hlen;
    [done|].
  destruct older as [|h t]; [by vm_compute in Hlen|].
  cbn [app clearSession sessionCache].
  rewrite lookup_delete_ne; [done|].
  intros ->. apply Hfresh. left.
Qed.

(** The eviction step removes the head of [accessOrder], whichever session
    that is. *)
Lemma signals_evict_removes_head st oldest rest :
  accessOrder st = oldest :: rest ->
  MAX_CACHED_SESSIONS <= length rest ->
  sessionCache (evictIfNeeded st) !! oldest = None.
Proof.
  intros Horder Hlen. unfold evictIfNeeded. rewrite Horder.
  rewrite (proj2 (Nat.leb_gt _ _)) by (cbn [length]; lia).
  cbn [clearSession sessionCache]. apply lookup_delete_eq.
Qed.

Lemma signals_get_after_put sessionId msgs pag st :
  JS.truthy sessionId = true ->
  cachedMessages sessionId (setSessionMessages sessionId msgs pag st) = msgs.
Proof.
  intros Hid. unfold cachedMessages, setSessionMessages, updateAccessOrder.
  rewrite Hid.
  rewrite (evict_keeps_newest sessionId
             {| messages := msgs;
                pagination :=
                  {| offset := JS.or_nat (argOffset pag) 0;
                     hasMore := JS.or_bool (argHasMore pag) false;
                     total := JS.or_nat (argTotal pag) (length msgs) |} |}
             _ (filter (λ id, id <> sessionId) (accessOrder st))).
  - done.
  - cbn [sessionCache storeSessionMessages]. apply lookup_insert_eq.
  - done.
  - intros Hin. by apply list_elem_of_filter in Hin as [Hne _].
Qed.

End facts.
End SignalsFacts.

Module SignalsExamples.
Import SessionSignals Scenarios.

(** C2: in the signal cache the eviction step takes the head of
    [accessOrder] whatever it is.  With eleven cached sessions of which the
    viewed one, [s0], is the least recently used, the step removes the entry
    of [s0]: the viewed session is evicted and its messages are gone. *)
Theorem signals_eviction_drops_viewed_session :
  let before := elevenBeforeEviction in
  let after := evictIfNeeded before in
  size (sessionCache before) = 11
  ∧ currentSessionId before = Some "s0"
  ∧ cachedMessages "s0" before = ["s0"]
  ∧ accessOrder before
    = ["s0"; "s1"; "s2"; "s3"; "s4"; "s5"; "s6"; "s7"; "s8"; "s9"; "s10"]
  ∧ currentSessionId after = Some "s0"
  ∧ sessionCache after !! "s0" = None
  ∧ currentMessages after = [].
Proof. vm_compute. repeat split. Qed.

End SignalsExamples.

(** ** The zustand based session cache *)

Module StoreFacts.
Import SessionStore.
Section facts.
Context {Message : Type}.
Implicit Types (st : Store Message) (m : gmap string (SessionData Message)).

Lemma fold_delete_lookup (l : list string) m k :
  fold_left (λ acc sessionId, delete sessionId acc) l m !! k
  = if decide (k ∈ l) then None else m !! k.
Proof.
  revert m. induction l as [|x l IH]; intros m; cbn [fold_left].
  - by rewrite decide_False by apply not_elem_of_nil.
  - rewrite IH. destruct (decide (k ∈ l)) as [Hin|Hin].
    + by rewrite decide_True by (by right).
    + destruct (decide (k = x)) as [->|Hne].
      * rewrite decide_True by left. apply lookup_delete_eq.
      * rewrite decide_False.
        -- by apply lookup_delete_ne.
        -- rewrite not_elem_of_cons. done.
Qed.

Lemma collect_elem_of cachedCount viewing order toEvict x :
  x ∈ collectVictims cachedCount viewing order toEvict ->
  x ∈ toEvict ∨ (x ∈ order ∧ Some x <> viewing).
Proof.
  revert toEvict. induction order as [|y order IH]; intros toEvict;
    cbn [collectVictims]; [by left|].
  case_bool_decide as Hview.
  - destruct (_ <=? _)%Z.
    + intros [Hx | ->%list_elem_of_singleton]%elem_of_app; [by left|].
      right. split; [left | done].
    + intros [[Hx | ->%list_elem_of_singleton]%elem_of_app | [Hx Hv]]%IH.
      * by left.
      * right. split; [left | done].
      * right. split; [by right | done].
  - intros [Hx | [Hx Hv]]%IH; [by left|].
    right. split; [by right | done].
Qed.

Lemma victims_not_viewed st x :
  x ∈ victims st -> x ∈ accessOrder st ∧ Some x <> viewingSessionId st.
Proof.
  unfold victims. destruct (_ <=? _)%nat.
  - intros Hx. by apply elem_of_nil in Hx.
  - intros [Hx | Hx]%collect_elem_of; [by apply elem_of_nil in Hx | done].
Qed.

Lemma evict_sessionData st :
  sessionData (_evictIfNeeded st)
  = fold_left (λ acc sessionId, delete sessionId acc) (victims st) (sessionData st).
Proof. unfold _evictIfNeeded. by destruct (victims st). Qed.

Lemma evict_lookup st k :
  sessionData (_evictIfNeeded st) !! k
  = if decide (k ∈ victims st) then None else sessionData st !! k.
Proof. rewrite evict_sessionData. apply fold_delete_lookup. Qed.

(** The viewed session is never among the victims. *)
Lemma store_evict_keeps_viewed st viewed :
  viewingSessionId st = Some viewed ->
  sessionData (_evictIfNeeded st) !! viewed = sessionData st !! viewed.
Proof.
  intros Hview. rewrite evict_lookup, decide_False; [done|].
  intros [_ Hne]%victims_not_viewed. by rewrite Hview in Hne.
Qed.

(** Nothing is evicted while the cache holds at most
    [MAX_CACHED_SESSIONS] sessions. *)
Lemma store_evict_only_under_pressure st :
  size (sessionData st) <= MAX_CACHED_SESSIONS -> _evictIfNeeded st = st.
Proof.
  intros Hsize. unfold _evictIfNeeded, victims.
  by rewrite (proj2 (Nat.leb_le _ _) Hsize).
Qed.

Lemma store_get_after_put sessionId msgs pag now st :
  JS.truthy sessionId = true ->
  sessionId ∉ victims (_updateAccessOrder sessionId
                         (storeSessionMessages sessionId (Some msgs) pag now st)) ->
  getSessionMessages sessionId (setSessionMessages sessionId (Some msgs) pag now st)
  = msgs.
Proof.
  intros Hid Hkept. unfold getSessionMessages, setSessionMessages. rewrite Hid.
  rewrite evict_lookup, decide_False by done.
  cbn [_updateAccessOrder storeSessionMessages sessionData].
  by rewrite lookup_insert_eq.
Qed.

(** The session being viewed survives its own put. *)
Lemma store_put_viewed_not_victim sessionId msgs pag now st :
  viewingSessionId st = Some sessionId ->
  sessionId ∉ victims (_updateAccessOrder sessionId
                         (storeSessionMessages sessionId msgs pag now st)).
Proof.
  intros Hview [_ Hne]%victims_not_viewed.
  cbn [_updateAccessOrder storeSessionMessages viewingSessionId] in Hne.
  by rewrite Hview in Hne.
Qed.

(** Under capacity pressure the victims are the oldest entries of
    [accessOrder] other than the viewed session, as many as the cache
    holds beyond [MAX_CACHED_SESSIONS]. *)
Lemma collect_take cachedCount viewing order toEvict :
  length toEvict < cachedCount - MAX_CACHED_SESSIONS ->
  collectVictims cachedCount viewing order toEvict
  = toEvict ++ take (cachedCount - MAX_CACHED_SESSIONS - length toEvict)
                    (filter (λ x, Some x <> viewing) order).
Proof.
  revert toEvict. induction order as [|y order IH]; intros toEvict Hlen;
    cbn [collectVictims].
  - by rewrite filter_nil, take_nil, app_nil_r.
  - rewrite filter_cons. destruct (decide (Some y <> viewing)) as [Hview|Hview].
    + rewrite bool_decide_eq_true_2 by done. rewrite length_app. cbn [length].
      destruct (_ <=? _)%Z eqn:Hstop.
      * apply Z.leb_le in Hstop.
        replace (cachedCount - MAX_CACHED_SESSIONS - length toEvict) with 1 by lia.
        cbn [take]. by rewrite take_0.
      * apply Z.leb_gt in Hstop.
        rewrite IH by (rewrite length_app; cbn [length]; lia).
        rewrite length_app. cbn [length].
        replace (cachedCount - MAX_CACHED_SESSIONS - length toEvict)
          with (S (cachedCount - MAX_CACHED_SESSIONS - (length toEvict + 1))) by lia.
        cbn [take]. by rewrite <- app_assoc.
    + rewrite bool_decide_eq_false_2 by done. by apply IH.
Qed.

Lemma victims_oldest_first st :
  MAX_CACHED_SESSIONS < size (sessionData st) ->
  victims st
  = take (size (sessionData st) - MAX_CACHED_SESSIONS)
         (filter (λ x, Some x <> viewingSessionId st) (accessOrder st)).
Proof.
  intros Hsize. unfold victims.
  rewrite (proj2 (Nat.leb_gt _ _) Hsize).
  rewrite collect_take by (cbn [length]; lia).
  cbn [length app]. by rewrite Nat.sub_0_r.
Qed.

Lemma length_filter_not_viewed (viewing : option string) (l : list string) :
  NoDup l -> length l <= S (length (filter (λ x, Some x <> viewing) l)).
Proof.
  induction 1 as [|x l Hx Hnd IH]; [cbn; lia|].
  rewrite filter_cons. destruct (decide (Some x <> viewing)) as [Hne|Heq].
  - cbn [length]. lia.
  - assert (viewing = Some x) as ->.
    { destruct (decide (Some x = viewing)) as [<-|Hne]; [done | contradiction]. }
    rewrite ListFacts.filter_all; [cbn [length]; lia|].
    intros y Hy [= ->]. contradiction.
Qed.

Lemma fold_delete_size (l : list string) m :
  NoDup l -> (∀ k, k ∈ l -> is_Some (m !! k)) ->
  size (fold_left (λ acc sessionId, delete sessionId acc) l m) = size m - length l.
Proof.
  intros Hnd. revert m. induction Hnd as [|x l Hx Hnd IH]; intros m Hall;
    cbn [fold_left length]; [lia|].
  rewrite IH.
  - rewrite map_size_delete_Some by (apply Hall; left). lia.
  - intros k Hk. rewrite lookup_delete_ne; [apply Hall; by right|].
    intros ->. done.
Qed.

Lemma tracked_length st :
  NoDup (accessOrder st) ->
  (∀ k, k ∈ accessOrder st <-> is_Some (sessionData st !! k)) ->
  length (accessOrder st) = size (sessionData st).
Proof.
  intros Hnd Hsync.
  rewrite <- (size_list_to_set (C := gset string)) by done.
  rewrite <- (size_dom (D := gset string)). f_equal.
  apply set_eq. intros k. by rewrite elem_of_list_to_set, elem_of_dom.
Qed.

(** When [accessOrder] lists exactly the cached sessions, the eviction
    step brings a cache that is over capacity back to
    [MAX_CACHED_SESSIONS] entries. *)
Lemma store_evict_restores_capacity st :
  NoDup (accessOrder st) ->
  (∀ k, k ∈ accessOrder st <-> is_Some (sessionData st !! k)) ->
  MAX_CACHED_SESSIONS < size (sessionData st) ->
  size (sessionData (_evictIfNeeded st)) = MAX_CACHED_SESSIONS.
Proof.
  intros Hnd Hsync Hsize.
  pose proof (tracked_length st Hnd Hsync) as Hlen.
  pose proof (length_filter_not_viewed (viewingSessionId st) _ Hnd) as Hcand.
  rewrite evict_sessionData, fold_delete_size.
  - rewrite victims_oldest_first, length_take by done.
    unfold MAX_CACHED_SESSIONS in *. lia.
  - rewrite victims_oldest_first by done.
    eapply sublist_NoDup; [|apply sublist_take]. by apply NoDup_filter.
  - intros k [Hk _]%victims_not_viewed. by apply Hsync.
Qed.

End facts.
End StoreFacts.

(** ** Reading back what was put *)

Module CacheFacts.
Import SessionStore SessionStoreRuns.
Section facts.
Context {Message : Type}.
Implicit Types (st : Store Message) (m : gmap string (SessionData Message)).

Lemma take_snoc_fresh (x : string) (l : list string) n :
  x ∉ l -> x ∈ take n (l ++ [x]) -> length l < n.
Proof.
  intros Hx Hin. destruct (decide (length l < n)) as [|Hge]; [done|].
  rewrite take_app_le in Hin by lia.
  apply elem_of_take in Hin as (i & Hi & _).
  exfalso. apply Hx. by eapply list_elem_of_lookup_2.
Qed.

(** A map whose keys, apart from [sessionId] and the viewed session, all
    occur in a list holds at most two entries more than the list is long. *)
Lemma cached_within_candidates m (viewing : option string) (sessionId : string)
    (candidates : list string) :
  (∀ k, is_Some (m !! k) -> k <> sessionId -> Some k <> viewing -> k ∈ candidates) ->
  size m <= length candidates + 2.
Proof.
  intros Hall.
  set (W := (match viewing with Some v => {[ v ]} | None => ∅ end : gset string)).
  set (V := ({[ sessionId ]} ∪ W : gset string)).
  assert (HW : size W <= 1).
  { subst W. destruct viewing; [by rewrite size_singleton | by rewrite size_empty; lia]. }
  assert (HV : size V <= 2).
  { subst V. rewrite size_union_alt, size_singleton.
    pose proof (subseteq_size (W ∖ {[ sessionId ]}) W) as Hle.
    assert (W ∖ {[ sessionId ]} ⊆ W) as Hsub%Hle by set_solver. lia. }
  assert (Hrest : size (dom m ∖ V) <= length candidates).
  { change (size (dom m ∖ V)) with (length (elements (dom m ∖ V))).
    apply submseteq_length, NoDup_submseteq; [apply NoDup_elements|].
    intros k Hk%elem_of_elements. apply elem_of_difference in Hk as [Hdom Hk].
    apply Hall.
    - by apply elem_of_dom.
    - intros ->. apply Hk. subst V. set_solver.
    - intros Heq. apply Hk. subst V W. rewrite <- Heq. set_solver. }
  rewrite <- (size_dom (D := gset string)).
  assert (Hsub : dom m ⊆ V ∪ dom m) by set_solver.
  apply subseteq_size in Hsub. rewrite size_union_alt in Hsub. lia.
Qed.

(** When every cached session is listed in [accessOrder], the eviction run
    by a put never picks the session that was just stored: enough older
    sessions stand before it. *)
Lemma store_put_keeps_listed_entry sessionId msgs pag now st :
  listed st ->
  sessionId ∉ victims (_updateAccessOrder sessionId
                         (storeSessionMessages sessionId msgs pag now st)).
Proof.
  intros Hlisted Hin.
  set (st1 := _updateAccessOrder sessionId
                (storeSessionMessages sessionId msgs pag now st)) in *.
  pose proof (StoreFacts.victims_not_viewed st1 sessionId Hin) as [_ Hview].
  destruct (decide (MAX_CACHED_SESSIONS < size (sessionData st1))) as [Hsize|Hsize].
  - rewrite StoreFacts.victims_oldest_first in Hin by done.
    cbn [st1 _updateAccessOrder storeSessionMessages accessOrder viewingSessionId] in Hin, Hview.
    rewrite filter_app, filter_cons, filter_nil, decide_True in Hin by done.
    apply take_snoc_fresh in Hin.
    + pose proof (cached_within_candidates (sessionData st1) (viewingSessionId st)
                    sessionId
                    (filter (λ x, Some x <> viewingSessionId st)
                       (filter (λ id, id <> sessionId) (accessOrder st)))) as Hcount.
      unfold MAX_CACHED_SESSIONS in *.
      assert (size (sessionData st1)
              <= length (filter (λ x, Some x <> viewingSessionId st)
                           (filter (λ id, id <> sessionId) (accessOrder st))) + 2);
        [|lia].
      apply Hcount. intros k Hk Hne Hv.
      cbn [st1 _updateAccessOrder storeSessionMessages sessionData] in Hk.
      rewrite lookup_insert_ne in Hk by done.
      rewrite !list_elem_of_filter. split_and!; [done | done | by apply Hlisted].
    + rewrite !list_elem_of_filter. tauto.
  - unfold victims in Hin.
    rewrite (proj2 (Nat.leb_le _ _)) in Hin by lia.
    by apply elem_of_nil in Hin.
Qed.

(** Reading back what was put: in the signal cache for every non-empty id,
    in the zustand store whenever every cached session is listed in
    [accessOrder] or the session is the one being viewed. *)
Lemma get_after_put_when_listed sessionId (msgs : list Message) pag now
    (signals : SessionSignals.Signals Message) st :
  JS.truthy sessionId = true ->
  listed st ∨ viewingSessionId st = Some sessionId ->
  SessionSignals.cachedMessages sessionId
    (SessionSignals.setSessionMessages sessionId msgs pag signals) = msgs
  ∧ getSessionMessages sessionId (setSessionMessages sessionId (Some msgs) pag now st)
    = msgs.
Proof.
  intros Hid Hst. split.
  - by apply SignalsFacts.signals_get_after_put.
  - apply StoreFacts.store_get_after_put; [done|]. destruct Hst as [Hl | Hv].
    + by apply store_put_keeps_listed_entry.
    + by apply StoreFacts.store_put_viewed_not_victim.
Qed.

Lemma removeFirst_keeps (k x : string) (a : list string) :
  k <> x -> k ∈ a -> k ∈ removeFirst x a.
Proof.
  intros Hne. induction a as [|y a IH]; cbn [removeFirst]; [done|].
  destruct (decide (y = x)) as [->|Hy].
  - intros [-> | Hin]%elem_of_cons; done.
  - intros [-> | Hin]%elem_of_cons; [left | right; by apply IH].
Qed.

Lemma fold_removeFirst_keeps (k : string) (l a : list string) :
  k ∉ l -> k ∈ a ->
  k ∈ fold_left (λ newAccessOrder sessionId, removeFirst sessionId newAccessOrder) l a.
Proof.
  revert a. induction l as [|x l IH]; intros a Hk Hin; cbn [fold_left]; [done|].
  apply not_elem_of_cons in Hk as [Hne Hk].
  apply IH; [done|]. by apply removeFirst_keeps.
Qed.

Lemma listed_evict st : listed st -> listed (_evictIfNeeded st).
Proof.
  intros Hl k Hk. rewrite StoreFacts.evict_lookup in Hk.
  destruct (decide (k ∈ victims st)) as [Hv|Hv]; [by destruct Hk|].
  assert (accessOrder (_evictIfNeeded st)
          = fold_left (λ newAccessOrder sessionId, removeFirst sessionId newAccessOrder)
                      (victims st) (accessOrder st)) as ->.
  { unfold _evictIfNeeded. by destruct (victims st). }
  apply fold_removeFirst_keeps; [done | by apply Hl].
Qed.

Lemma listed_update sessionId st :
  listed st -> listed (_updateAccessOrder sessionId st).
Proof.
  intros Hl k Hk. cbn [_updateAccessOrder accessOrder sessionData] in *.
  rewrite elem_of_app, list_elem_of_filter, list_elem_of_singleton.
  destruct (decide (k = sessionId)); [by right | left; split; [done | by apply Hl]].
Qed.

(** Every action keeps the cached sessions listed, except a prepend that
    creates the entry of a session that is not cached. *)
Lemma listed_perform st (a : Action Message) :
  listed st -> prependsUncached st a = false -> listed (perform st a).
Proof.
  intros Hl Hcached.
  destruct a as [sessionId msgs pag now | sessionId msgs pag now | sessionId
                | sessionId pag | sessionId | ]; cbn [perform].
  - unfold setSessionMessages. destruct (JS.truthy sessionId); [|done].
    apply listed_evict. intros k Hk.
    cbn [_updateAccessOrder storeSessionMessages accessOrder sessionData] in *.
    rewrite elem_of_app, list_elem_of_filter, list_elem_of_singleton.
    destruct (decide (k = sessionId)) as [|Hne]; [by right|]. left.
    rewrite lookup_insert_ne in Hk by done. split; [done | by apply Hl].
  - unfold prependSessionMessages. destruct msgs as [[|msg msgs]|]; try done.
    cbn [prependsUncached] in Hcached.
    destruct (JS.truthy sessionId); [|done]. cbn [andb] in Hcached.
    apply negb_false_iff, bool_decide_eq_true in Hcached.
    intros k Hk. cbn [accessOrder sessionData] in *.
    destruct (decide (k = sessionId)) as [->|Hne]; [by apply Hl|].
    rewrite lookup_insert_ne in Hk by done. by apply Hl.
  - unfold switchSession. destruct sessionId as [id|]; [|done].
    destruct (JS.truthy id); [|done]. by apply listed_update.
  - unfold SessionStoreOps.updatePagination. destruct (JS.truthy sessionId); [|done].
    destruct (sessionData st !! sessionId) as [existing|] eqn:Hget; [|done].
    intros k Hk. cbn [accessOrder sessionData] in *.
    destruct (decide (k = sessionId)) as [->|Hne]; [apply Hl; by rewrite Hget|].
    rewrite lookup_insert_ne in Hk by done. by apply Hl.
  - intros k Hk. cbn [clearSession accessOrder sessionData] in *.
    destruct (decide (k = sessionId)) as [->|Hne].
    + rewrite lookup_delete_eq in Hk. by destruct Hk.
    + rewrite lookup_delete_ne in Hk by done.
      rewrite list_elem_of_filter. split; [done | by apply Hl].
  - intros k Hk. cbn [clearAllSessions emptyStore sessionData] in Hk.
    rewrite lookup_empty in Hk. by destruct Hk.
Qed.

Lemma listed_performAll (actions : list (Action Message)) st :
  listed st -> prependsOnlyCached actions st = true ->
  listed (performAll actions st).
Proof.
  revert st. induction actions as [|a actions IH]; intros st Hl Hrun; [done|].
  cbn [prependsOnlyCached] in Hrun.
  apply andb_true_iff in Hrun as [Ha%negb_true_iff Hrest].
  cbn [performAll fold_left]. apply IH; [by apply listed_perform | done].
Qed.

(** Starting from the empty store, as long as messages are only prepended
    to cached sessions, a put under a non-empty id is always read back. *)
Lemma get_after_put_along_runs (actions : list (Action Message)) sessionId
    (msgs : list Message) pag now :
  JS.truthy sessionId = true ->
  prependsOnlyCached actions emptyStore = true ->
  getSessionMessages sessionId
    (setSessionMessages sessionId (Some msgs) pag now (performAll actions emptyStore))
  = msgs.
Proof.
  intros Hid Hrun.
  apply StoreFacts.store_get_after_put; [done|].
  apply store_put_keeps_listed_entry, listed_performAll; [|done].
  intros k Hk. cbn [emptyStore sessionData] in Hk.
  rewrite lookup_empty in Hk. by destruct Hk.
Qed.

End facts.

(** C9: in the zustand store a put can lose the very entry it stores.
    After older messages were prepended for ten sessions that were not
    cached, ten entries are cached and [accessOrder] is empty; storing
    session [x] then makes [x] the only id of [accessOrder], the eviction
    run by the put picks it, and reading [x] back returns no message
    although no other action came in between.  The signal cache, driven
    the same way, lists the ten sessions and returns the messages put. *)
Theorem store_put_evicts_own_entry :
  let before := Scenarios.tenPrependedStore in
  let stored :=
    _updateAccessOrder "x"
      (storeSessionMessages "x" (Some ["m1"; "m2"]) noPagination 11 before) in
  let after := setSessionMessages "x" (Some ["m1"; "m2"]) noPagination 11 before in
  size (sessionData before) = 10
  ∧ accessOrder before = []
  ∧ viewingSessionId before = None
  ∧ getSessionMessages "x" stored = ["m1"; "m2"]
  ∧ accessOrder stored = ["x"]
  ∧ victims stored = ["x"]
  ∧ after = _evictIfNeeded stored
  ∧ getSessionMessages "x" after = []
  ∧ isSessionCached "x" after = false
  ∧ size (sessionData after) = 10
  ∧ SessionSignals.accessOrder Scenarios.tenPrepended
    = ["s1"; "s2"; "s3"; "s4"; "s5"; "s6"; "s7"; "s8"; "s9"; "s10"]
  ∧ SessionSignals.cachedMessages "x"
      (SessionSignals.setSessionMessages "x" ["m1"; "m2"] noPagination
         Scenarios.tenPrepended)
    = ["m1"; "m2"].
Proof. vm_compute. repeat split. Qed.

End CacheFacts.

Module StoreExamples.
Import SessionStore Scenarios.

(** On the state where the signal cache drops the viewed session, the zustand
    store skips it and evicts the next oldest session instead. *)
Lemma store_eviction_skips_viewed_session :
  let before := elevenBeforeEvictionStore in
  let after := _evictIfNeeded before in
  size (sessionData before) = 11
  ∧ viewingSessionId before = Some "s0"
  ∧ victims before = ["s1"]
  ∧ getSessionMessages "s0" after = ["s0"]
  ∧ size (sessionData after) = 10.
Proof. vm_compute. repeat split. Qed.

(** Ids that were viewed but never stored sit in [accessOrder] and are taken
    as victims although they hold no entry: the cache stays over capacity. *)
Lemma store_eviction_counts_unloaded_ids :
  let before := elevenAndTwoViewedStore in
  let after := _evictIfNeeded before in
  size (sessionData before) = 11
  ∧ victims before = ["a"]
  ∧ size (sessionData after) = 11.
Proof. vm_compute. repeat split. Qed.

End StoreExamples.

(** ** More on the permission arbiter *)

Module ArbiterMore.
Import ClaudeSDK ArbiterTrace.
Section facts.
Context {Input Suggestion : Type}.
Local Abbreviation Arbiter := (ClaudeSDK.Arbiter Input Suggestion).
Local Abbreviation PendingRequest := (ClaudeSDK.PendingRequest Input Suggestion).
Implicit Types (st : Arbiter) (m : list (string * PendingRequest)).

Lemma wf_filter (P : string * PendingRequest -> Prop) `{!∀ e, Decision (P e)} m :
  JSMap.wf m -> JSMap.wf (filter P m).
Proof.
  unfold JSMap.wf, JSMap.keys. intros Hnd.
  eapply sublist_NoDup; [exact Hnd|]. apply fmap_sublist, sublist_filter.
Qed.

Lemma get_filter_absent (P : string * PendingRequest -> Prop)
    `{!∀ e, Decision (P e)} k m :
  JSMap.get k m = None -> JSMap.get k (filter P m) = None.
Proof.
  rewrite !JSMapFacts.get_None. intros Hk Hin. apply Hk.
  unfold JSMap.keys in *. apply list_elem_of_fmap in Hin as (y & -> & Hy).
  apply list_elem_of_filter in Hy as [_ Hy]. apply list_elem_of_fmap. by exists y.
Qed.

Lemma calls_of_filter_absent (P : string * PendingRequest -> Prop)
    `{!∀ e, Decision (P e)} (s : Settlement Input Suggestion) k m :
  JSMap.get k m = None ->
  filter (λ c, c.1 = k) ((λ e, (e.1, s)) <$> filter P m) = [].
Proof.
  rewrite JSMapFacts.get_None. intros Hk.
  apply ListFacts.filter_none. intros [a b] Hin Hc. cbn in Hc. subst a.
  apply list_elem_of_fmap in Hin as (y & [= -> ->] & Hy).
  apply list_elem_of_filter in Hy as [_ Hy].
  apply Hk. unfold JSMap.keys. apply list_elem_of_fmap. by exists y.
Qed.

Lemma wf_step st ev :
  JSMap.wf (pendingPermissionRequests st) ->
  JSMap.wf (pendingPermissionRequests (arbiterStep st ev)).
Proof.
  intros Hwf. destruct ev as [s rid meta now | rid resp | rid | T now];
    cbn [arbiterStep canUseTool fst snd].
  - by apply JSMapFacts.wf_set.
  - unfold resolvePermissionRequest.
    destruct (JSMap.get rid _); cbn; [by apply JSMapFacts.wf_delete | done].
  - by apply JSMapFacts.wf_delete.
  - rewrite ArbiterFacts.cleanup_spec by done. by apply wf_filter.
Qed.

Lemma answers_app requestId st st' extra :
  resolverCalls st' = resolverCalls st ++ extra ->
  length (answersOf requestId st')
  = length (answersOf requestId st)
    + length (filter (λ c : string * Settlement Input Suggestion, isResolved c.2 = true)
                (filter (λ c, c.1 = requestId) extra)).
Proof.
  intros Hcalls. unfold answersOf, callsFor. rewrite Hcalls.
  by rewrite !filter_app, length_app.
Qed.

Lemma single_call_count requestId rid (s : Settlement Input Suggestion) :
  length (filter (λ c : string * Settlement Input Suggestion, isResolved c.2 = true)
            (filter (λ c, c.1 = requestId) [(rid, s)]))
  = if decide (rid = requestId) then (if isResolved s then 1 else 0) else 0.
Proof.
  rewrite (filter_cons (λ c, c.1 = requestId)), filter_nil. cbn [fst].
  destruct (decide (rid = requestId)); [|done].
  rewrite filter_cons, filter_nil. cbn [snd].
  destruct s; cbn [isResolved]; [by rewrite decide_True | by rewrite decide_False].
Qed.

Lemma answers_same_calls requestId st st' :
  resolverCalls st' = resolverCalls st ->
  answersOf requestId st' = answersOf requestId st.
Proof. intros Hcalls. unfold answersOf, callsFor. by rewrite Hcalls. Qed.

Lemma balanced_step requestId st ev n :
  balanced requestId st n ->
  balanced requestId (arbiterStep st ev)
    (n + if registers requestId ev then 1 else 0).
Proof.
  intros [Hwf Hle]. split; [by apply wf_step|].
  unfold pendingCount in *.
  destruct ev as [s rid meta now | rid resp | rid | T now];
    cbn [arbiterStep canUseTool fst snd registers].
  - rewrite (answers_same_calls _ st) by done.
    cbn [registerPermissionRequest pendingPermissionRequests].
    destruct (decide (rid = requestId)) as [->|Hne].
    + rewrite bool_decide_eq_true_2 by done. rewrite JSMapFacts.get_set_eq.
      destruct (JSMap.get requestId _); lia.
    + rewrite bool_decide_eq_false_2 by done.
      rewrite JSMapFacts.get_set_ne by done. lia.
  - unfold resolvePermissionRequest.
    destruct (JSMap.get rid _) as [p|] eqn:Hget; cbn [snd]; [|lia].
    erewrite (answers_app _ st) by (cbn [resolverCalls]; reflexivity).
    rewrite single_call_count. cbn [isResolved pendingPermissionRequests].
    destruct (decide (rid = requestId)) as [->|Hne].
    + rewrite JSMapFacts.get_delete_eq. rewrite Hget in Hle. lia.
    + rewrite JSMapFacts.get_delete_ne by done. lia.
  - unfold onAbortSignal.
    erewrite (answers_app _ st) by (cbn [resolverCalls]; reflexivity).
    rewrite single_call_count. cbn [isResolved pendingPermissionRequests].
    destruct (decide (rid = requestId)) as [->|Hne].
    + rewrite JSMapFacts.get_delete_eq.
      destruct (JSMap.get requestId _); lia.
    + rewrite JSMapFacts.get_delete_ne by done. lia.
  - rewrite ArbiterFacts.cleanup_spec by done.
    erewrite (answers_app _ st) by (cbn [resolverCalls]; reflexivity).
    cbn [pendingPermissionRequests].
    destruct (JSMap.get requestId (pendingPermissionRequests st)) as [req|] eqn:Hget.
    + rewrite (ArbiterFacts.get_filter _ _ _ _ Hwf Hget).
      rewrite (ArbiterFacts.calls_of_filter _ _ _ _ _ Hwf Hget). cbn [snd].
      destruct (decide (now - timestamp req > JS.nullish T defaultTimeoutMs)%Z).
      * rewrite decide_False by (intros Hn; by apply Hn).
        rewrite filter_cons, filter_nil. cbn [snd isResolved].
        rewrite decide_True by done. cbn [length]. lia.
      * rewrite decide_True by done. rewrite filter_nil. cbn [length]. lia.
    + rewrite get_filter_absent by done.
      rewrite calls_of_filter_absent by done. rewrite filter_nil. cbn [length]. lia.
Qed.

Lemma balanced_run requestId evs st n :
  balanced requestId st n ->
  balanced requestId (fold_left arbiterStep evs st)
    (n + length (registrationsOf requestId evs)).
Proof.
  revert st n. induction evs as [|ev evs IH]; intros st n Hb; cbn [fold_left].
  - unfold registrationsOf. rewrite filter_nil. cbn. by rewrite Nat.add_0_r.
  - apply (balanced_step _ _ ev) in Hb. apply IH in Hb.
    unfold registrationsOf in *. rewrite filter_cons.
    destruct (registers requestId ev) eqn:Hreg.
    + rewrite decide_True by done. cbn [length].
      by replace (n + S (length (filter (λ ev0, registers requestId ev0 = true) evs)))
        with (n + 1 + length (filter (λ ev0, registers requestId ev0 = true) evs)) by lia.
    + rewrite decide_False by done. by rewrite Nat.add_0_r in Hb.
Qed.

(** X1: along any run of the arbiter, a request id receives at most as many
    answers as requests were registered under it; an id used once is
    answered at most once, whether by the user, by the timeout sweep, or by
    both racing. *)
Theorem never_answered_more_than_asked
    (evs : list (ArbiterEvent Input Suggestion)) requestId :
  length (answersOf requestId (runArbiter evs))
  <= length (registrationsOf requestId evs).
Proof.
  destruct (balanced_run requestId evs emptyArbiter 0) as [_ Hle].
  - split; [apply NoDup_nil_2 | cbn; lia].
  - unfold runArbiter. cbn [Nat.add] in Hle. lia.
Qed.

(** X2: the timeout sweep only removes entries, keeping the others in their
    order of registration, and running it a second time at the same instant
    changes nothing and answers nobody again. *)
Theorem sweep_is_idempotent timeoutMs now st :
  JSMap.wf (pendingPermissionRequests st) ->
  let st' := cleanupTimedOutPermissions timeoutMs now st in
  pendingPermissionRequests st' `sublist_of` pendingPermissionRequests st
  ∧ cleanupTimedOutPermissions timeoutMs now st' = st'.
Proof.
  intros Hwf st'. subst st'. rewrite ArbiterFacts.cleanup_spec by done.
  split; [apply sublist_filter|].
  rewrite ArbiterFacts.cleanup_spec by (by apply wf_filter).
  cbn [pendingPermissionRequests resolverCalls]. f_equal.
  - apply ListFacts.filter_all. intros e He.
    by apply list_elem_of_filter in He as [? _].
  - rewrite (ListFacts.filter_none
               (λ e, (now - timestamp e.2 > JS.nullish timeoutMs defaultTimeoutMs)%Z)
               (filter _ (pendingPermissionRequests st))).
    + by rewrite fmap_nil, app_nil_r.
    + intros e He. by apply list_elem_of_filter in He as [? _].
Qed.

(** X3: once the abort signal of a request has fired, the request is gone:
    a user response arriving afterwards is reported as not found and changes
    nothing, the abort is logged as a rejection, and other requests keep
    their entries. *)
Theorem response_after_abort_not_found requestId response st :
  let st1 := onAbortSignal requestId st in
  resolvePermissionRequest requestId response st1 = (false, st1)
  ∧ callsFor requestId st1
    = callsFor requestId st ++ [(requestId, Rejected "Permission request aborted")]
  ∧ ∀ other, other <> requestId ->
      JSMap.get other (pendingPermissionRequests st1)
      = JSMap.get other (pendingPermissionRequests st).
Proof.
  intros st1. subst st1. unfold onAbortSignal. split_and!.
  - unfold resolvePermissionRequest. cbn [pendingPermissionRequests].
    by rewrite JSMapFacts.get_delete_eq.
  - unfold callsFor. cbn [resolverCalls].
    rewrite filter_app, filter_cons, filter_nil. cbn [fst].
    by rewrite decide_True.
  - intros other Hne. cbn [pendingPermissionRequests].
    by apply JSMapFacts.get_delete_ne.
Qed.

End facts.
End ArbiterMore.

Module ArbiterMoreExamples.
Import ClaudeSDK Scenarios.

Lemma sweep_is_idempotent_witness :
  let st' := cleanupTimedOutPermissions None 301001 twoPending in
  pendingPermissionRequests st' `sublist_of` pendingPermissionRequests twoPending
  ∧ cleanupTimedOutPermissions None 301001 st' = st'.
Proof.
  apply (ArbiterMore.sweep_is_idempotent None 301001 twoPending).
  apply (bool_decide_unpack _). vm_compute. reflexivity.
Defined.

End ArbiterMoreExamples.

(** ** Debug listings *)

Module DebugFacts.
Import ClaudeSDK ClaudeSDKDebug.

Lemma filter_fmap_comm {A B} (f : A -> B) (P : B -> Prop) `{!∀ b, Decision (P b)}
    (l : list A) :
  filter P (f <$> l) = f <$> filter (λ a, P (f a)) l.
Proof.
  induction l as [|a l IH]; [done|].
  rewrite fmap_cons, !filter_cons. destruct (decide (P (f a))).
  - rewrite fmap_cons. by f_equal.
  - done.
Qed.

(** X4: right after a timeout sweep the listing of pending permissions, taken
    at the same instant, shows exactly the requests listed before whose wait
    does not exceed the threshold, in the same order; none of them has waited
    longer than the threshold. *)
Theorem listing_after_sweep {Input Suggestion} timeoutMs now
    (st : Arbiter Input Suggestion) :
  JSMap.wf (pendingPermissionRequests st) ->
  let T := JS.nullish timeoutMs defaultTimeoutMs in
  let listed := getAllPendingPermissions now (cleanupTimedOutPermissions timeoutMs now st) in
  listed = filter (λ info, (waitingTimeMs info <= T)%Z) (getAllPendingPermissions now st)
  ∧ ∀ info, info ∈ listed -> (waitingTimeMs info <= T)%Z.
Proof.
  intros Hwf T listed.
  assert (Heq : listed
                = filter (λ info, (waitingTimeMs info <= T)%Z)
                    (getAllPendingPermissions now st)).
  { subst listed. unfold getAllPendingPermissions.
    rewrite ArbiterFacts.cleanup_spec by done. cbn [pendingPermissionRequests].
    rewrite filter_fmap_comm. f_equal. fold T.
    apply list_filter_iff. intros [rid req]. cbn [snd waitingTimeMs]. lia. }
  split; [done|].
  intros info Hin. rewrite Heq in Hin. by apply list_elem_of_filter in Hin as [? _].
Qed.

Lemma listing_after_sweep_witness :
  (λ info, (infoRequestId info, waitingTimeMs info))
    <$> getAllPendingPermissions 301001
          (cleanupTimedOutPermissions None 301001 Scenarios.twoPending)
  = [("perm_2", 101001%Z)].
Proof.
  rewrite (proj1 (listing_after_sweep None 301001 Scenarios.twoPending
                    ArbiterExamples.twoPending_wf)).
  vm_compute. reflexivity.
Defined.

(** X5: for a duration that is not negative, the fields printed by
    [formatDuration] add up to the whole seconds of the duration; the leading
    field is not negative and every later field lies between 0 and 59. *)
Theorem duration_fields_exact (ms : Z) :
  (0 <= ms)%Z ->
  fieldsSeconds (durationFields ms) = (ms / 1000)%Z
  ∧ match durationFields ms with
    | [] => False
    | first :: rest =>
        (0 <= first.1)%Z ∧ Forall (λ f, (0 <= f.1 < 60)%Z) rest
    end.
Proof.
  intros Hms. unfold durationFields.
  set (seconds := (ms / 1000)%Z). set (minutes := (seconds / 60)%Z).
  set (hours := (minutes / 60)%Z).
  assert (Hs : (0 <= seconds)%Z) by (apply Z.div_pos; lia).
  assert (Hm : (0 <= minutes)%Z) by (apply Z.div_pos; lia).
  assert (Hh : (0 <= hours)%Z) by (apply Z.div_pos; lia).
  pose proof (Z.rem_mod_nonneg seconds 60 Hs ltac:(lia)) as Hrs.
  pose proof (Z.rem_mod_nonneg minutes 60 Hm ltac:(lia)) as Hrm.
  pose proof (Z.mod_pos_bound seconds 60 ltac:(lia)) as Hbs.
  pose proof (Z.mod_pos_bound minutes 60 ltac:(lia)) as Hbm.
  pose proof (Z.div_mod seconds 60 ltac:(lia)) as Hds.
  pose proof (Z.div_mod minutes 60 ltac:(lia)) as Hdm.
  fold minutes in Hds. fold hours in Hdm.
  destruct (0 <? hours)%Z eqn:Hhours; [|destruct (0 <? minutes)%Z eqn:Hmin].
  - split.
    + unfold fieldsSeconds. cbn [foldr fst snd]. vm_compute unitSeconds. lia.
    + cbn [fst]. split; [lia|]. repeat constructor; cbn [fst]; lia.
  - split.
    + unfold fieldsSeconds. cbn [foldr fst snd]. vm_compute unitSeconds. lia.
    + cbn [fst]. split; [lia|]. repeat constructor; cbn [fst]; lia.
  - apply Z.ltb_ge in Hmin. split.
    + unfold fieldsSeconds. cbn [foldr fst snd]. vm_compute unitSeconds. lia.
    + cbn [fst]. split; [lia | constructor].
Qed.

Lemma duration_fields_witness :
  fieldsSeconds (durationFields 3725999) = 3725%Z
  ∧ formatDuration 3725999 = "1h 2m 5s".
Proof.
  split.
  - apply (proj1 (duration_fields_exact 3725999 ltac:(lia))).
  - vm_compute. reflexivity.
Defined.

End DebugFacts.

(** ** More on session tracking *)

Module SessionsMore.
Import ClaudeSDK ClaudeSDKDebug.

(** X6: a session that was aborted successfully is no longer tracked: it is
    not reported active, and a second abort finds nothing, returns [false]
    and leaves the state as it is, however the interrupt call would end. *)
Theorem abort_twice sessionId interrupted st session :
  getSession sessionId st = Some session ->
  let st1 := (abortClaudeSDKSession sessionId Returns st).2 in
  isClaudeSDKSessionActive sessionId st1 = false
  ∧ getSessionInfo sessionId st1 = None
  ∧ abortClaudeSDKSession sessionId interrupted st1 = (false, st1).
Proof.
  intros Hget st1.
  assert (Hgone : getSession sessionId st1 = None).
  { subst st1. unfold abortClaudeSDKSession. rewrite Hget. cbn [snd].
    unfold getSession, removeSession. cbn [activeSessions].
    apply JSMapFacts.get_delete_eq. }
  unfold isClaudeSDKSessionActive, getSessionInfo, abortClaudeSDKSession.
  by rewrite Hgone.
Qed.

Lemma abort_twice_witness :
  let st1 := (abortClaudeSDKSession "abc123" Returns Scenarios.oneRunningSession).2 in
  abortClaudeSDKSession "abc123" Returns st1 = (false, st1).
Proof.
  intros st1.
  apply (abort_twice "abc123" Returns Scenarios.oneRunningSession
           {| startTime := 5; status := "active";
              tempImagePaths := [Scenarios.stagedImage];
              tempDir := Some Scenarios.stagedDir |} eq_refl).
Defined.

(** X7: cleaning up temporary files touches nothing else: a path that is
    neither one of the listed image paths nor below the staging directory
    stays on disk; and when no image path is listed nothing at all is
    removed, so a staging directory without images is left behind. *)
Theorem cleanup_leaves_other_files paths dir (fs : gset string) :
  cleanupTempFiles [] dir fs = fs
  ∧ ∀ p, p ∈ fs -> p ∉ paths ->
      (∀ d, dir = Some d -> under d p = false) ->
      p ∈ cleanupTempFiles paths dir fs.
Proof.
  split; [done|]. intros p Hp Hnot Hdir. unfold cleanupTempFiles.
  destruct paths as [|q paths]; [done|].
  rewrite AbortFacts.unlink_all.
  assert (Hkept : p ∈ fs ∖ list_to_set (C := gset string) (q :: paths)).
  { rewrite elem_of_difference, elem_of_list_to_set. done. }
  destruct dir as [d|]; [destruct (JS.truthy d)|]; [|done|done].
  unfold rmRecursive. rewrite elem_of_filter. split; [by apply Hdir | done].
Qed.

Lemma cleanup_leaves_other_files_witness :
  "/proj/src/main.js"
  ∈ cleanupTempFiles [Scenarios.stagedImage] (Some Scenarios.stagedDir)
      {[ Scenarios.stagedImage; Scenarios.stagedDir; "/proj/src/main.js" ]}.
Proof.
  apply (proj2 (cleanup_leaves_other_files [Scenarios.stagedImage]
                  (Some Scenarios.stagedDir) _)).
  - set_solver.
  - intros Hin. apply list_elem_of_singleton in Hin. discriminate Hin.
  - intros d [= <-]. reflexivity.
Defined.

(** X8: registering a session makes it active with the given start time and
    leaves the other sessions as they were, whether or not the id was tracked
    before; removing it again makes it unknown. *)
Theorem add_then_remove_session sessionId now paths dir st :
  let st1 := addSession sessionId now paths dir st in
  getSessionInfo sessionId st1 = Some (true, now, "active")
  ∧ isClaudeSDKSessionActive sessionId st1 = true
  ∧ (∀ other, other <> sessionId -> getSession other st1 = getSession other st)
  ∧ getSession sessionId (removeSession sessionId st1) = None
  ∧ (∀ other, other <> sessionId ->
       getSession other (removeSession sessionId st1) = getSession other st).
Proof.
  intros st1. subst st1.
  unfold getSessionInfo, isClaudeSDKSessionActive, getSession, addSession,
    removeSession.
  cbn [activeSessions]. rewrite JSMapFacts.get_set_eq. cbn [status startTime].
  split_and!; try done.
  - intros other Hne. by apply JSMapFacts.get_set_ne.
  - apply JSMapFacts.get_delete_eq.
  - intros other Hne. rewrite JSMapFacts.get_delete_ne by done.
    by apply JSMapFacts.get_set_ne.
Qed.

End SessionsMore.

(** ** Announcing a new session during streaming *)

Module StreamFacts.
Import ClaudeSDK ClaudeSDKStream.

Lemma stream_after_capture messages q :
  JS.truthy_opt (capturedSessionId q) = true ->
  (runStream messages q).1 = q
  ∧ filter (λ ev, isSessionCreated ev = true) (runStream messages q).2 = [].
Proof.
  intros Hcap. induction messages as [|m messages [IHq IHev]]; [done|].
  cbn [runStream]. unfold onSdkMessage. rewrite Hcap, andb_false_r.
  destruct (runStream messages q) as [q2 later]. cbn [fst snd] in *.
  split; [done|]. cbn [app]. rewrite filter_cons.
  by rewrite decide_False by (cbn; discriminate).
Qed.

Lemma first_message_of_new_session sessionId m :
  JS.truthy_opt sessionId = false ->
  onSdkMessage m (startQuery sessionId)
  = if JS.truthy_opt m then
      ({| optionsSessionId := sessionId; capturedSessionId := m;
          sessionCreatedSent := true |},
       [SessionCreated (default "" m); ClaudeResponse m])
    else (startQuery sessionId, [ClaudeResponse m]).
Proof.
  intros Hsid. unfold onSdkMessage.
  cbn [startQuery capturedSessionId optionsSessionId sessionCreatedSent].
  rewrite Hsid. cbn [negb andb]. by rewrite andb_true_r.
Qed.

(** X9: one query announces a new session at most once.  A query that resumes
    a session sends no session-created event.  A query for a new session
    sends exactly one, carrying the id of the first message that has one, and
    keeps that id as the captured id whatever ids later messages carry; if no
    message has an id, none is sent. *)
Theorem session_created_once sessionId messages :
  let run := runStream messages (startQuery sessionId) in
  let announced := filter (λ ev, isSessionCreated ev = true) run.2 in
  if JS.truthy_opt sessionId then
    announced = [] ∧ capturedSessionId run.1 = sessionId
  else
    match firstSessionId messages with
    | Some id => announced = [SessionCreated id] ∧ capturedSessionId run.1 = Some id
    | None => announced = [] ∧ capturedSessionId run.1 = sessionId
    end.
Proof.
  intros run announced. subst announced run.
  destruct (JS.truthy_opt sessionId) eqn:Hsid.
  - destruct (stream_after_capture messages (startQuery sessionId) Hsid) as [-> ->].
    done.
  - induction messages as [|m messages IH]; [done|].
    cbn [runStream firstSessionId].
    rewrite first_message_of_new_session by done.
    destruct (JS.truthy_opt m) eqn:Hm.
    + destruct m as [id|]; [|done]. cbn [default].
      match goal with
      | |- context [runStream messages ?q] =>
          destruct (stream_after_capture messages q Hm) as [Hq Hev];
          destruct (runStream messages q) as [q2 later]
      end.
      cbn [fst snd] in *. subst q2. cbn [capturedSessionId].
      split; [|done]. cbn [app]. rewrite filter_cons.
      rewrite decide_True by done. rewrite filter_cons.
      rewrite decide_False by (cbn; discriminate). by rewrite Hev.
    + destruct (runStream messages (startQuery sessionId)) as [q2 later].
      cbn [fst snd app] in *. rewrite filter_cons.
      rewrite decide_False by (cbn; discriminate). exact IH.
Qed.

End StreamFacts.

(** ** Mapping CLI options *)

Module OptionsFacts.
Import ClaudeSDKOptions.

Lemma add_plan_tools_spec (tools allowed : list string) :
  let result :=
    fold_left (λ acc tool, if bool_decide (tool ∈ acc) then acc else acc ++ [tool])
              tools allowed in
  allowed `prefix_of` result
  ∧ (∀ t, t ∈ result <-> t ∈ allowed ∨ t ∈ tools)
  ∧ (NoDup allowed -> NoDup result).
Proof.
  revert allowed. induction tools as [|tool tools IH]; intros allowed; cbn [fold_left].
  - split_and!; [done | | done]. intros t. rewrite elem_of_nil. tauto.
  - case_bool_decide as Hin.
    + destruct (IH allowed) as (Hpre & Hmem & Hnd). split_and!; [done | | done].
      intros t. rewrite Hmem, elem_of_cons. split; [tauto|].
      intros [?|[->|?]]; tauto.
    + destruct (IH (allowed ++ [tool])) as (Hpre & Hmem & Hnd). split_and!.
      * etrans; [|exact Hpre]. by apply prefix_app_r.
      * intros t. rewrite Hmem, elem_of_app, list_elem_of_singleton, elem_of_cons. tauto.
      * intros Hnd0. apply Hnd. apply NoDup_app. split_and!; [done | | apply NoDup_singleton].
        intros x Hx Hx'. apply list_elem_of_singleton in Hx'. by subst.
Qed.

(** X10: with permissions skipped outside plan mode, the SDK runs in
    bypassPermissions mode and neither the allowed nor the disallowed tool
    list of the settings is passed on. *)
Theorem skip_permissions_bypasses options settings :
  toolsSettings options = Some settings ->
  skipPermissions settings = true ->
  permissionMode options <> Some "plan" ->
  let sdk := mapCliOptionsToSDK options in
  sdkPermissionMode sdk = Some "bypassPermissions"
  ∧ sdkAllowedTools sdk = None
  ∧ sdkDisallowedTools sdk = None.
Proof.
  intros Hset Hskip Hmode sdk. subst sdk. unfold mapCliOptionsToSDK.
  rewrite Hset. cbn [JS.nullish sdkPermissionMode sdkAllowedTools sdkDisallowedTools].
  rewrite Hskip, bool_decide_eq_true_2 by done. done.
Qed.

(** X11: plan mode wins over skipped permissions: the mode passed on is
    plan, and the allowed tools are the tools of the settings, in their
    order, followed by the plan mode tools that were missing; every plan mode
    tool is allowed, nothing else is added, and no tool is listed twice
    unless the settings already did. *)
Theorem plan_mode_tools options :
  permissionMode options = Some "plan" ->
  let own := JS.or_array (allowedTools (JS.nullish (toolsSettings options)
                                          defaultToolsSettings)) in
  let sdk := mapCliOptionsToSDK options in
  sdkPermissionMode sdk = Some "plan"
  ∧ ∃ tools, sdkAllowedTools sdk = Some tools
      ∧ own `prefix_of` tools
      ∧ (∀ t, t ∈ tools <-> t ∈ own ∨ t ∈ planModeTools)
      ∧ (NoDup own -> NoDup tools).
Proof.
  intros Hmode own sdk. subst sdk. unfold mapCliOptionsToSDK.
  cbn [sdkPermissionMode sdkAllowedTools]. rewrite Hmode.
  rewrite bool_decide_eq_false_2 by (intros Hn; by apply Hn).
  rewrite andb_false_r. rewrite bool_decide_eq_true_2 by done.
  split; [done|]. fold own.
  destruct (add_plan_tools_spec planModeTools own) as (Hpre & Hmem & Hnd).
  exists (addPlanModeTools own). split_and!; try done.
  destruct (addPlanModeTools own) as [|t ts] eqn:Hres; [|done].
  exfalso. assert (Hin : "Read" ∈ addPlanModeTools own).
  { apply Hmem. right. left. }
  rewrite Hres in Hin. by apply elem_of_nil in Hin.
Qed.

(** X12: the mapping never passes on an empty value: the working directory,
    the resumed session id and the model are never the empty string, the
    permission mode is never empty nor "default", and a tool list that is
    passed on is never empty. *)
Theorem no_empty_option_forwarded options :
  let sdk := mapCliOptionsToSDK options in
  sdkCwd sdk <> Some ""
  ∧ sdkResume sdk <> Some ""
  ∧ sdkModel sdk <> ""
  ∧ sdkPermissionMode sdk <> Some ""
  ∧ sdkPermissionMode sdk <> Some "default"
  ∧ sdkAllowedTools sdk <> Some []
  ∧ sdkDisallowedTools sdk <> Some [].
Proof.
  intros sdk. subst sdk. unfold mapCliOptionsToSDK.
  cbn [sdkCwd sdkResume sdkModel sdkPermissionMode sdkAllowedTools sdkDisallowedTools].
  assert (Hopt : ∀ o : option string,
            match o with
            | Some c => if JS.truthy c then Some c else None
            | None => None
            end <> Some "").
  { intros [c|]; [|done]. destruct (JS.truthy c) eqn:Hc; [|done].
    intros [= ->]. discriminate Hc. }
  split_and!.
  - apply Hopt.
  - apply Hopt.
  - unfold JS.or_string. destruct (model options) as [m|]; [|done].
    destruct (JS.truthy m) eqn:Hm; [|done]. intros ->. discriminate Hm.
  - destruct (_ && _); [done|]. destruct (permissionMode options) as [m|]; [|done].
    destruct (JS.truthy m) eqn:Hm; cbn [andb]; [|done].
    destruct (String.eqb m "default"); cbn [negb]; [done|].
    intros [= ->]. discriminate Hm.
  - destruct (_ && _); [done|]. destruct (permissionMode options) as [m|]; [|done].
    destruct (JS.truthy m); cbn [andb]; [|done].
    destruct (String.eqb m "default") eqn:Hd; cbn [negb]; [done|].
    intros [= ->]. discriminate Hd.
  - destruct (_ && _); [done|].
    match goal with |- context [(0 <? length ?l)%nat] => destruct l end; done.
  - destruct (_ && _); [done|].
    destruct (disallowedTools _) as [[|t ts]|]; done.
Qed.

End OptionsFacts.

Module OptionsExamples.
Import ClaudeSDKOptions.

Lemma skip_permissions_bypasses_witness :
  let sdk :=
    mapCliOptionsToSDK
      {| sessionId := None; cwd := Some "/proj";
         toolsSettings :=
           Some {| allowedTools := Some ["Read"]; disallowedTools := Some ["Bash"];
                   skipPermissions := true |};
         permissionMode := Some "default"; model := None |} in
  sdkPermissionMode sdk = Some "bypassPermissions"
  ∧ sdkAllowedTools sdk = None
  ∧ sdkDisallowedTools sdk = None.
Proof.
  apply (OptionsFacts.skip_permissions_bypasses _
           {| allowedTools := Some ["Read"]; disallowedTools := Some ["Bash"];
              skipPermissions := true |});
    [reflexivity | reflexivity | discriminate].
Defined.

Lemma plan_mode_tools_witness :
  let sdk :=
    mapCliOptionsToSDK
      {| sessionId := None; cwd := None;
         toolsSettings :=
           Some {| allowedTools := Some ["Bash"; "Task"]; disallowedTools := None;
                   skipPermissions := true |};
         permissionMode := Some "plan"; model := None |} in
  sdkPermissionMode sdk = Some "plan"
  ∧ ∃ tools, sdkAllowedTools sdk = Some tools
      ∧ ["Bash"; "Task"] `prefix_of` tools
      ∧ (∀ t, t ∈ tools <-> t ∈ ["Bash"; "Task"] ∨ t ∈ planModeTools)
      ∧ (NoDup ["Bash"; "Task"] -> NoDup tools).
Proof.
  apply (OptionsFacts.plan_mode_tools
           {| sessionId := None; cwd := None;
              toolsSettings :=
                Some {| allowedTools := Some ["Bash"; "Task"]; disallowedTools := None;
                        skipPermissions := true |};
              permissionMode := Some "plan"; model := None |}).
  reflexivity.
Defined.

End OptionsExamples.

(** ** More on the signal based cache *)

Module SignalsMore.
Import SessionSignals SessionSignalsOps.
Section facts.
Context {Message : Type}.
Implicit Types (st : Signals Message).

Lemma moved_to_end_NoDup (order : list string) sessionId :
  NoDup order -> NoDup (filter (λ id, id <> sessionId) order ++ [sessionId]).
Proof.
  intros Hnd. apply NoDup_app. split_and!.
  - by apply NoDup_filter.
  - intros x [Hne _]%list_elem_of_filter ->%list_elem_of_singleton. done.
  - apply NoDup_singleton.
Qed.

Lemma moved_to_end_elem (order : list string) sessionId k :
  k ∈ filter (λ id, id <> sessionId) order ++ [sessionId]
  <-> k = sessionId ∨ k ∈ order.
Proof.
  rewrite elem_of_app, list_elem_of_filter, list_elem_of_singleton.
  destruct (decide (k = sessionId)); tauto.
Qed.

Lemma tracked_update sessionId st :
  NoDup (accessOrder st) ->
  (∀ k, is_Some (sessionCache st !! k) -> k = sessionId ∨ k ∈ accessOrder st) ->
  JS.truthy sessionId = true ->
  tracked (updateAccessOrder sessionId st).
Proof.
  intros Hnd Hsub Hid. unfold updateAccessOrder, tracked. rewrite Hid.
  cbn [accessOrder sessionCache]. split; [by apply moved_to_end_NoDup|].
  intros k Hk. apply moved_to_end_elem. by apply Hsub.
Qed.

Lemma tracked_clear sessionId st : tracked st -> tracked (clearSession sessionId st).
Proof.
  intros [Hnd Hsub]. unfold clearSession, tracked. cbn [accessOrder sessionCache].
  split; [by apply NoDup_filter|]. intros k Hk.
  apply list_elem_of_filter. destruct (decide (k = sessionId)) as [->|Hne].
  - rewrite lookup_delete_eq in Hk. by destruct Hk.
  - rewrite lookup_delete_ne in Hk by done. split; [done | by apply Hsub].
Qed.

Lemma tracked_evict st : tracked st -> tracked (evictIfNeeded st).
Proof.
  intros Ht. unfold evictIfNeeded. destruct (_ <=? _)%nat; [done|].
  destruct (accessOrder st); [done|]. by apply tracked_clear.
Qed.

Lemma tracked_set sessionId msgs pag st :
  JS.truthy sessionId = true -> tracked st ->
  tracked (setSessionMessages sessionId msgs pag st).
Proof.
  intros Hid [Hnd Hsub]. unfold setSessionMessages.
  apply tracked_evict, tracked_update; [done | | done].
  intros k. cbn [storeSessionMessages sessionCache accessOrder].
  destruct (decide (k = sessionId)) as [->|Hne]; [by left|].
  rewrite lookup_insert_ne by done. intros Hk. right. by apply Hsub.
Qed.

Lemma tracked_perform st a :
  (∀ id, storedId a = Some id -> JS.truthy id = true) ->
  tracked st -> tracked (perform st a).
Proof.
  intros Hid Ht. pose proof Ht as [Hnd Hsub].
  destruct a as [sid | sid msgs pag | sid msgs pag | sid pag | sid |];
    cbn [perform storedId] in *.
  - unfold switchToSession. destruct (JS.truthy sid) eqn:Hs.
    + apply tracked_update; [done | | done].
      cbn [sessionCache accessOrder]. intros k Hk. right. by apply Hsub.
    + unfold updateAccessOrder. rewrite Hs. done.
  - apply tracked_set; [by apply Hid | done].
  - unfold prependSessionMessages.
    destruct (sessionCache st !! sid) as [existing|] eqn:Hget.
    + apply tracked_update; [done | | by apply Hid].
      cbn [sessionCache accessOrder]. intros k.
      destruct (decide (k = sid)) as [->|Hne]; [by left|].
      rewrite lookup_insert_ne by done. intros Hk. right. by apply Hsub.
    + apply tracked_set; [by apply Hid | done].
  - unfold updatePagination.
    destruct (sessionCache st !! sid) as [existing|] eqn:Hget; [|done].
    split; [done|]. cbn [sessionCache accessOrder]. intros k.
    destruct (decide (k = sid)) as [->|Hne].
    + intros _. apply Hsub. by rewrite Hget.
    + rewrite lookup_insert_ne by done. apply Hsub.
  - by apply tracked_clear.
  - split; [apply NoDup_nil_2|]. cbn. intros k Hk.
    rewrite lookup_empty in Hk. by destruct Hk.
Qed.

(** X13: whatever actions are called on the signal cache, starting empty and
    storing messages only under non-empty ids, [accessOrder] never lists an
    id twice and lists every cached session, so every cached session can be
    reached by the eviction. *)
Theorem signals_order_tracks_cache (actions : list (Action Message)) :
  (∀ a id, a ∈ actions -> storedId a = Some id -> JS.truthy id = true) ->
  tracked (performAll actions emptySignals).
Proof.
  intros Hids. unfold performAll.
  assert (Hstart : tracked (@emptySignals Message)).
  { split; [apply NoDup_nil_2|]. cbn. intros k Hk.
    rewrite lookup_empty in Hk. by destruct Hk. }
  revert Hstart. generalize (@emptySignals Message).
  induction actions as [|a actions IH]; intros st Hst; cbn [fold_left]; [done|].
  apply IH.
  - intros a' id Ha'. apply Hids. by right.
  - apply tracked_perform; [|done]. intros id. apply Hids. left.
Qed.

Lemma tracked_size st :
  tracked st -> size (sessionCache st) <= length (accessOrder st).
Proof.
  intros [Hnd Hsub].
  rewrite <- (size_list_to_set (C := gset string)) by done.
  rewrite <- (size_dom (D := gset string)). apply subseteq_size.
  intros k Hk. apply elem_of_list_to_set, Hsub. by apply elem_of_dom.
Qed.

Lemma evict_length st :
  NoDup (accessOrder st) ->
  length (accessOrder st) <= S MAX_CACHED_SESSIONS ->
  length (accessOrder (evictIfNeeded st)) <= MAX_CACHED_SESSIONS.
Proof.
  intros Hnd Hlen. unfold evictIfNeeded.
  destruct (_ <=? _)%nat eqn:Hle; [by apply Nat.leb_le in Hle|].
  destruct (accessOrder st) as [|h t] eqn:Horder; [rewrite Horder; cbn; lia|].
  cbn [clearSession accessOrder]. rewrite Horder.
  apply NoDup_cons in Hnd as [Hh Hnd].
  rewrite filter_cons, decide_False by (intros Hn; by apply Hn).
  rewrite ListFacts.filter_all by (intros x Hx ->; done).
  cbn [length] in Hlen. lia.
Qed.

(** X14: storing messages under a non-empty id keeps the signal cache within
    its capacity: if [accessOrder] tracks the cache and lists at most
    MAX_CACHED_SESSIONS ids before the call, then afterwards it still lists
    at most that many and no more sessions than that are cached. *)
Theorem signals_put_respects_capacity sessionId msgs pag st :
  JS.truthy sessionId = true ->
  tracked st ->
  length (accessOrder st) <= MAX_CACHED_SESSIONS ->
  let st' := setSessionMessages sessionId msgs pag st in
  length (accessOrder st') <= MAX_CACHED_SESSIONS
  ∧ size (sessionCache st') <= MAX_CACHED_SESSIONS.
Proof.
  intros Hid Ht Hlen st'.
  assert (Hl : length (accessOrder st') <= MAX_CACHED_SESSIONS).
  { subst st'. unfold setSessionMessages. apply evict_length.
    - unfold updateAccessOrder. rewrite Hid. cbn [accessOrder storeSessionMessages].
      apply moved_to_end_NoDup, Ht.
    - unfold updateAccessOrder. rewrite Hid. cbn [accessOrder storeSessionMessages].
      rewrite length_app. cbn [length]. rewrite Nat.add_1_r. apply le_n_S.
      etrans; [apply length_filter | done]. }
  split; [done|].
  etrans; [apply tracked_size; subst st'; by apply tracked_set | done].
Qed.

(** X15: prepending older messages to a cached session puts them in front of
    the messages already held, marks the session as most recently used,
    evicts nothing and leaves every other session's entry as it was. *)
Theorem signals_prepend_keeps_order sessionId msgs pag st existing :
  JS.truthy sessionId = true ->
  sessionCache st !! sessionId = Some existing ->
  let st' := prependSessionMessages sessionId msgs pag st in
  cachedMessages sessionId st' = msgs ++ messages existing
  ∧ last (accessOrder st') = Some sessionId
  ∧ currentSessionId st' = currentSessionId st
  ∧ ∀ other, other <> sessionId ->
      sessionCache st' !! other = sessionCache st !! other.
Proof.
  intros Hid Hget st'. subst st'. unfold prependSessionMessages, cachedMessages.
  rewrite Hget. unfold updateAccessOrder. rewrite Hid.
  cbn [sessionCache accessOrder currentSessionId].
  rewrite lookup_insert_eq. cbn [messages]. split_and!; [done | | done |].
  - by rewrite last_snoc.
  - intros other Hne. by rewrite lookup_insert_ne.
Qed.

End facts.
End SignalsMore.

Module SignalsMoreExamples.
Import SessionSignals SessionSignalsOps Scenarios.

Lemma signals_order_tracks_cache_witness :
  tracked (performAll [ASetSessionMessages "s0" ["m0"] noPagination;
                       ASwitchToSession "s0";
                       APrependSessionMessages "s0" ["older"] noPagination;
                       AClearSession "s1"] emptySignals).
Proof.
  apply SignalsMore.signals_order_tracks_cache.
  intros a id Ha Hst.
  repeat (apply elem_of_cons in Ha as [->|Ha]; [cbn in Hst; by simplify_eq|]).
  by apply elem_of_nil in Ha.
Defined.

Lemma tenLoaded_tracked : tracked tenLoaded.
Proof.
  split.
  - apply (bool_decide_unpack _). vm_compute. reflexivity.
  - intros k Hk. apply elem_of_dom in Hk.
    assert (Hsub : dom (sessionCache tenLoaded)
                   ⊆ list_to_set (C := gset string) (accessOrder tenLoaded)).
    { apply (bool_decide_unpack _). vm_compute. reflexivity. }
    apply Hsub in Hk. by apply elem_of_list_to_set in Hk.
Qed.

Lemma signals_put_respects_capacity_witness :
  let st' := setSessionMessages "s10" ["m"] noPagination tenLoaded in
  length (accessOrder st') <= MAX_CACHED_SESSIONS
  ∧ size (sessionCache st') <= MAX_CACHED_SESSIONS.
Proof.
  apply (SignalsMore.signals_put_respects_capacity "s10" ["m"] noPagination tenLoaded).
  - reflexivity.
  - exact tenLoaded_tracked.
  - vm_compute. lia.
Defined.

Lemma signals_prepend_keeps_order_witness :
  cachedMessages "s3" (prependSessionMessages "s3" ["older"] noPagination tenLoaded)
  = ["older"; "s3"].
Proof.
  destruct (SignalsMore.signals_prepend_keeps_order "s3" ["older"] noPagination tenLoaded
              {| messages := ["s3"];
                 pagination := {| offset := 0; hasMore := false; total := 1 |} |}
              eq_refl) as [Hmsgs _].
  - vm_compute. reflexivity.
  - exact Hmsgs.
Defined.

End SignalsMoreExamples.

(** ** More on the zustand store *)

Module StoreMore.
Import SessionStore SessionStoreOps.
Section facts.
Context {Message : Type}.
Implicit Types (st : Store Message).

Lemma removeFirst_filter (x : string) (a : list string) :
  NoDup a -> removeFirst x a = filter (λ y, y <> x) a.
Proof.
  induction 1 as [|y a Hy Hnd IH]; [done|].
  cbn [removeFirst]. rewrite filter_cons. destruct (decide (y = x)) as [->|Hne].
  - rewrite decide_False by (intros Hn; by apply Hn).
    symmetry. apply ListFacts.filter_all. intros z Hz ->. done.
  - rewrite decide_True by done. by f_equal.
Qed.

Lemma fold_removeFirst (l a : list string) :
  NoDup a ->
  fold_left (λ acc x, removeFirst x acc) l a = filter (λ y, y ∉ l) a.
Proof.
  revert a. induction l as [|x l IH]; intros a Hnd; cbn [fold_left].
  - symmetry. apply ListFacts.filter_all. intros y _. apply not_elem_of_nil.
  - rewrite IH by (rewrite removeFirst_filter by done; by apply NoDup_filter).
    rewrite removeFirst_filter by done. rewrite list_filter_filter.
    apply list_filter_iff. intros y. rewrite not_elem_of_cons. tauto.
Qed.

Lemma evict_accessOrder st :
  NoDup (accessOrder st) ->
  accessOrder (_evictIfNeeded st) = filter (λ y, y ∉ victims st) (accessOrder st).
Proof.
  intros Hnd. unfold _evictIfNeeded. destruct (victims st) as [|v vs] eqn:Hv.
  - symmetry. apply ListFacts.filter_all. intros y _. apply not_elem_of_nil.
  - cbn [accessOrder]. by apply fold_removeFirst.
Qed.

Lemma store_tracked_evict st : tracked st -> tracked (_evictIfNeeded st).
Proof.
  intros [Hnd Hsync]. split.
  - rewrite evict_accessOrder by done. by apply NoDup_filter.
  - intros k. rewrite evict_accessOrder by done.
    rewrite list_elem_of_filter, StoreFacts.evict_lookup.
    destruct (decide (k ∈ victims st)) as [Hin|Hin].
    + split; [tauto | intros [? [=]]].
    + rewrite <- Hsync. tauto.
Qed.

(** X16: the eviction of the zustand store only removes sessions listed in
    [accessOrder] other than the viewed one: the entry of the viewed session
    and of any session not listed stay as they are, the viewed session stays
    selected, and no entry is added or changed. *)
Theorem store_eviction_frame st :
  viewingSessionId (_evictIfNeeded st) = viewingSessionId st
  ∧ (∀ k, k ∉ accessOrder st ∨ viewingSessionId st = Some k ->
       sessionData (_evictIfNeeded st) !! k = sessionData st !! k)
  ∧ (∀ k e, sessionData (_evictIfNeeded st) !! k = Some e ->
       sessionData st !! k = Some e).
Proof.
  split_and!.
  - unfold _evictIfNeeded. by destruct (victims st).
  - intros k Hk. rewrite StoreFacts.evict_lookup, decide_False; [done|].
    intros [Hin Hne]%StoreFacts.victims_not_viewed.
    destruct Hk as [Hk|Hk]; [done | by rewrite Hk in Hne].
  - intros k e. rewrite StoreFacts.evict_lookup. by destruct (decide _).
Qed.

Lemma tracked_stored sessionId msgs pag now st :
  tracked st ->
  tracked (_updateAccessOrder sessionId (storeSessionMessages sessionId msgs pag now st)).
Proof.
  intros [Hnd Hsync]. split; cbn [_updateAccessOrder storeSessionMessages accessOrder
                                   sessionData].
  - apply NoDup_app. split_and!; [by apply NoDup_filter | | apply NoDup_singleton].
    intros x [Hne _]%list_elem_of_filter ->%list_elem_of_singleton. done.
  - intros k. rewrite elem_of_app, list_elem_of_filter, list_elem_of_singleton.
    destruct (decide (k = sessionId)) as [->|Hne].
    + rewrite lookup_insert_eq. split; [by eexists | tauto].
    + rewrite lookup_insert_ne by done. rewrite <- Hsync. tauto.
Qed.

Lemma newest_not_victim sessionId msgs pag now st :
  tracked st ->
  size (sessionData st) <= MAX_CACHED_SESSIONS ->
  sessionId ∉ victims (_updateAccessOrder sessionId
                         (storeSessionMessages sessionId msgs pag now st)).
Proof.
  intros Ht Hsize.
  set (st1 := _updateAccessOrder sessionId (storeSessionMessages sessionId msgs pag now st)).
  pose proof (tracked_stored sessionId msgs pag now st Ht) as Ht1. fold st1 in Ht1.
  destruct (decide (size (sessionData st1) <= MAX_CACHED_SESSIONS)) as [Hle|Hgt].
  - unfold victims. rewrite (proj2 (Nat.leb_le _ _) Hle). apply not_elem_of_nil.
  - rewrite StoreFacts.victims_oldest_first by lia.
    pose proof (StoreFacts.tracked_length st1 (proj1 Ht1) (proj2 Ht1)) as Hlen.
    assert (Hs1 : size (sessionData st1) <= S (size (sessionData st))).
    { subst st1. cbn [_updateAccessOrder storeSessionMessages sessionData].
      rewrite map_size_insert. destruct (sessionData st !! sessionId); cbn; lia. }
    subst st1. cbn [_updateAccessOrder storeSessionMessages accessOrder
                     viewingSessionId] in *.
    set (older := filter (λ id, id <> sessionId) (accessOrder st)) in *.
    rewrite length_app in Hlen. cbn [length] in Hlen.
    assert (Hnd : NoDup older) by (apply NoDup_filter, Ht).
    pose proof (StoreFacts.length_filter_not_viewed (viewingSessionId st) older Hnd)
      as Hcand.
    rewrite filter_app, take_app_le by (unfold MAX_CACHED_SESSIONS in *; lia).
    intros Hin. apply elem_of_take in Hin as (i & Hi & _).
    apply list_elem_of_lookup_2 in Hi.
    apply list_elem_of_filter in Hi as [_ Hin].
    subst older. by apply list_elem_of_filter in Hin as [Hne _].
Qed.

(** X17: when [accessOrder] lists exactly the cached sessions and at most
    MAX_CACHED_SESSIONS are cached, storing messages under a non-empty id
    keeps both facts and the stored messages can be read back: the put never
    evicts the session it just stored. *)
Theorem store_put_keeps_capacity sessionId msgs pag now st :
  JS.truthy sessionId = true ->
  tracked st ->
  size (sessionData st) <= MAX_CACHED_SESSIONS ->
  let st' := setSessionMessages sessionId (Some msgs) pag now st in
  tracked st'
  ∧ size (sessionData st') <= MAX_CACHED_SESSIONS
  ∧ getSessionMessages sessionId st' = msgs.
Proof.
  intros Hid Ht Hsize st'.
  pose proof (tracked_stored sessionId (Some msgs) pag now st Ht) as Ht1.
  split_and!.
  - subst st'. unfold setSessionMessages. rewrite Hid.
    by apply store_tracked_evict.
  - subst st'. unfold setSessionMessages. rewrite Hid.
    match goal with |- context [_evictIfNeeded ?s] => set (st1 := s) in * end.
    destruct (decide (size (sessionData st1) <= MAX_CACHED_SESSIONS)) as [Hle|Hgt].
    + by rewrite StoreFacts.store_evict_only_under_pressure.
    + rewrite StoreFacts.store_evict_restores_capacity; [done | apply Ht1.. | lia].
  - subst st'. apply StoreFacts.store_get_after_put; [done|].
    by apply newest_not_victim.
Qed.

(** X18: prepending to the zustand store does nothing without messages; with
    messages and a non-empty id it puts them in front of the cached ones
    (or alone, for an uncached id), keeps the pagination fields that are not
    given, and touches neither [accessOrder], the viewed session nor any
    other entry. *)
Theorem store_prepend sessionId m ms pag now st :
  JS.truthy sessionId = true ->
  let st' := prependSessionMessages sessionId (Some (m :: ms)) pag now st in
  prependSessionMessages sessionId None pag now st = st
  ∧ prependSessionMessages sessionId (Some []) pag now st = st
  ∧ getSessionMessages sessionId st' = (m :: ms) ++ getSessionMessages sessionId st
  ∧ getPagination sessionId st'
    = mergePagination (getPagination sessionId st) pag
  ∧ accessOrder st' = accessOrder st
  ∧ viewingSessionId st' = viewingSessionId st
  ∧ ∀ other, other <> sessionId -> sessionData st' !! other = sessionData st !! other.
Proof.
  intros Hid st'. subst st'.
  unfold prependSessionMessages, getSessionMessages, getPagination. rewrite Hid.
  cbn [sessionData accessOrder viewingSessionId]. rewrite lookup_insert_eq.
  split_and!; try done.
  - cbn [messages]. by destruct (sessionData st !! sessionId).
  - cbn [pagination]. by destruct (sessionData st !! sessionId).
  - intros other Hne. by rewrite lookup_insert_ne.
Qed.

(** X19: updating the pagination of a session that is not cached does
    nothing; for a cached session it overrides exactly the fields given,
    keeps the messages and the access time, and leaves [accessOrder] and the
    other entries alone. *)
Theorem store_update_pagination sessionId pag st :
  let st' := updatePagination sessionId pag st in
  (sessionData st !! sessionId = None -> st' = st)
  ∧ (JS.truthy sessionId = true ->
     ∀ existing, sessionData st !! sessionId = Some existing ->
       sessionData st' !! sessionId
       = Some {| messages := messages existing;
                 lastAccess := lastAccess existing;
                 pagination := mergePagination (pagination existing) pag |})
  ∧ accessOrder st' = accessOrder st
  ∧ ∀ other, other <> sessionId -> sessionData st' !! other = sessionData st !! other.
Proof.
  intros st'. subst st'. unfold updatePagination. split_and!.
  - intros ->. by destruct (JS.truthy sessionId).
  - intros -> existing ->. cbn [sessionData]. by rewrite lookup_insert_eq.
  - destruct (JS.truthy sessionId); [|done]. by destruct (sessionData st !! sessionId).
  - intros other Hne. destruct (JS.truthy sessionId); [|done].
    destruct (sessionData st !! sessionId); [|done].
    cbn [sessionData]. by rewrite lookup_insert_ne.
Qed.

End facts.
End StoreMore.

Module StoreMoreExamples.
Import SessionStore SessionStoreOps Scenarios.

Lemma tenLoadedStore_tracked : tracked tenLoadedStore.
Proof.
  split.
  - apply (bool_decide_unpack _). vm_compute. reflexivity.
  - intros k. rewrite <- elem_of_dom.
    rewrite <- (elem_of_list_to_set (C := gset string)).
    assert (Heq : list_to_set (C := gset string) (accessOrder tenLoadedStore)
                  = dom (sessionData tenLoadedStore)).
    { apply (bool_decide_unpack _). vm_compute. reflexivity. }
    by rewrite Heq.
Qed.

Lemma store_put_keeps_capacity_witness :
  let st' := setSessionMessages "s10" (Some ["m"]) noPagination 7 tenLoadedStore in
  tracked st'
  ∧ size (sessionData st') <= MAX_CACHED_SESSIONS
  ∧ getSessionMessages "s10" st' = ["m"].
Proof.
  apply (StoreMore.store_put_keeps_capacity "s10" ["m"] noPagination 7 tenLoadedStore).
  - reflexivity.
  - exact tenLoadedStore_tracked.
  - vm_compute. lia.
Defined.

Lemma store_prepend_witness :
  getSessionMessages "s3"
    (prependSessionMessages "s3" (Some ["older"; "old"]) noPagination 9 tenLoadedStore)
  = ["older"; "old"; "s3"].
Proof.
  destruct (StoreMore.store_prepend "s3" "older" ["old"] noPagination 9 tenLoadedStore
              eq_refl) as (_ & _ & Hmsgs & _).
  rewrite Hmsgs. vm_compute. reflexivity.
Defined.

Lemma store_update_pagination_witness :
  updatePagination "unknown" {| argOffset := Some 20; argHasMore := None;
                                argTotal := None |} tenLoadedStore
  = tenLoadedStore.
Proof.
  apply (proj1 (StoreMore.store_update_pagination "unknown" _ tenLoadedStore)).
  vm_compute. reflexivity.
Defined.

End StoreMoreExamples.

(** ** More on the client side *)

Module ClientMore.
Import App ChatInterface ChatActions.

Lemma delete_first_spec (iteration newSet : list string) :
  match (deleteFirstTemporary iteration newSet).2 with
  | None =>
      (deleteFirstTemporary iteration newSet).1 = newSet
      ∧ ∀ x, x ∈ iteration -> isTemporary x = false
  | Some p =>
      (deleteFirstTemporary iteration newSet).1 = JSSet.delete p newSet
      ∧ p ∈ iteration ∧ isTemporary p = true
  end.
Proof.
  induction iteration as [|sid rest IH]; cbn [deleteFirstTemporary].
  - cbn. split; [done|]. intros x Hx. by apply elem_of_nil in Hx.
  - destruct (isTemporary sid) eqn:Hsid; cbn [fst snd].
    + split_and!; [done | left | done].
    + destruct (deleteFirstTemporary rest newSet).2 as [p|].
      * destruct IH as (Heq & Hin & Hp). split_and!; [done | by right | done].
      * destruct IH as (Heq & Hall). split; [done|].
        intros x [->|Hx]%elem_of_cons; [done | by apply Hall].
Qed.

(** X20: replacing a temporary session never drops a session that is not
    temporary, always leaves the real id in the set, adds nothing but the
    real id, removes at most the one temporary id it reports, and reports
    none exactly when the set holds no temporary id. *)
Theorem replace_temporary_frame realSessionId (prev : list string) :
  let result := replaceTemporarySession realSessionId prev in
  realSessionId ∈ result.1
  ∧ (∀ x, x ∈ prev -> isTemporary x = false -> x ∈ result.1)
  ∧ (∀ x, x ∈ result.1 -> x = realSessionId ∨ x ∈ prev)
  ∧ (∀ x, x ∈ prev -> x ∉ result.1 -> result.2 = Some x)
  ∧ (result.2 = None <-> ∀ x, x ∈ prev -> isTemporary x = false)
  ∧ (NoDup prev -> NoDup result.1).
Proof.
  intros result. subst result. unfold replaceTemporarySession.
  pose proof (delete_first_spec prev prev) as Hspec.
  destruct (deleteFirstTemporary prev prev) as [newSet replaced]. cbn [fst snd] in *.
  assert (Hadd : ∀ x s, x ∈ JSSet.add realSessionId s <-> x = realSessionId ∨ x ∈ s).
  { intros x s. unfold JSSet.add. destruct (decide (realSessionId ∈ s)) as [Hin|Hin].
    - split; [by right | intros [->|?]; done].
    - rewrite elem_of_app, list_elem_of_singleton. tauto. }
  assert (Hnd : ∀ s, NoDup s -> NoDup (JSSet.add realSessionId s)).
  { intros s Hs. unfold JSSet.add. destruct (decide (realSessionId ∈ s)); [done|].
    apply NoDup_app. split_and!; [done | | apply NoDup_singleton].
    intros x Hx ->%list_elem_of_singleton. done. }
  destruct replaced as [p|].
  - destruct Hspec as (-> & Hin & Hp). unfold JSSet.delete in *. split_and!.
    + apply Hadd. by left.
    + intros x Hx Hreal. apply Hadd. right. apply list_elem_of_filter.
      split; [intros ->; congruence | done].
    + intros x [->|Hx]%Hadd; [by left|]. right.
      by apply list_elem_of_filter in Hx as [_ ?].
    + intros x Hx Hgone. f_equal. destruct (decide (x = p)) as [->|Hne]; [done|].
      exfalso. apply Hgone, Hadd. right. by apply list_elem_of_filter.
    + split; [done|]. intros Hall. rewrite (Hall p Hin) in Hp. done.
    + intros Hprev. apply Hnd. by apply NoDup_filter.
  - destruct Hspec as (-> & Hall). split_and!.
    + apply Hadd. by left.
    + intros x Hx _. apply Hadd. by right.
    + intros x Hx. by apply Hadd.
    + intros x Hx Hgone. exfalso. apply Hgone, Hadd. by right.
    + done.
    + apply Hnd.
Qed.

Lemma prefix_append (p s : string) : String.prefix p (p +:+ s) = true.
Proof.
  induction p as [|a p IH].
  - by destruct s.
  - change (String a p +:+ s) with (String a (p +:+ s)).
    cbn [String.prefix]. destruct (Ascii.ascii_dec a a); [exact IH | done].
Qed.




(** X22: the fix of the session filter only widens it: every message the
    old filter let through still passes, and the messages that pass only
    since the fix are exactly the session-scoped ones reaching a view that
    has no current session and whose pending id is unset or equal to the
    message's id. *)
Theorem filter_fix_only_widens isGlobalMessage messageSessionId v :
  (acceptsMessageBeforeFix isGlobalMessage messageSessionId v = true ->
   acceptsMessage isGlobalMessage messageSessionId v = true)
  ∧ (acceptsMessageBeforeFix isGlobalMessage messageSessionId v = false
     ∧ acceptsMessage isGlobalMessage messageSessionId v = true
     <-> isGlobalMessage = false
         ∧ JS.truthy_opt messageSessionId = true
         ∧ JS.truthy_opt (currentSessionId v) = false
         ∧ (JS.truthy_opt (pendingSessionId v) = false
            ∨ messageSessionId = pendingSessionId v)).
Proof.
  unfold acceptsMessageBeforeFix, acceptsMessage.
  destruct isGlobalMessage; cbn [negb andb].
  { split; [done|]. split; [intros [? _]; done | intros (? & _); done]. }
  destruct (JS.truthy_opt messageSessionId); cbn [negb andb].
  2: { split; [done|]. split; [intros [? _]; done | intros (_ & ? & _); done]. }
  destruct (JS.truthy_opt (currentSessionId v)); cbn [negb andb].
  { split; [done|]. split; [|intros (_ & _ & ? & _); done].
    intros [Hold Hnew]. rewrite Hold in Hnew. done. }
  split; [done|].
  destruct (JS.truthy_opt (pendingSessionId v)); cbn [negb andb].
  - destruct (decide (messageSessionId = pendingSessionId v)) as [Heq|Hne].
    + rewrite bool_decide_eq_false_2 by (intros Hn; by apply Hn).
      split; [intros _; split_and!; auto | done].
    + rewrite bool_decide_eq_true_2 by done.
      split; [intros [_ ?]; done | intros (_ & _ & _ & [?|?]); done].
  - split; [intros _; split_and!; auto | done].
Qed.

(** X23: "Always Allow" on a displayed permission request makes the arbiter
    answer that request with allow, the tool input exactly as the SDK gave
    it, and the SDK's suggested rules in their order, each with its
    destination forced to the local settings and nothing else changed. *)
Theorem always_allow_persists_locally {Input} requestId
    (meta : ClaudeSDK.Metadata Input PermissionUpdate) now
    (st : ClaudeSDK.Arbiter Input PermissionUpdate) :
  let asked := ClaudeSDK.canUseTool requestId meta now st in
  let answer := alwaysAllowResponse asked.2 in
  let granted := persistedPermissions (JS.or_array (ClaudeSDK.suggestions meta)) in
  ClaudeSDK.resolvePermissionRequest answer.1 answer.2 asked.1
  = (true,
     {| ClaudeSDK.pendingPermissionRequests :=
          JSMap.delete requestId (ClaudeSDK.pendingPermissionRequests asked.1);
        ClaudeSDK.resolverCalls :=
          ClaudeSDK.resolverCalls st
          ++ [(requestId,
               ClaudeSDK.Resolved (ClaudeSDK.ResultAllow (ClaudeSDK.input meta) granted))] |})
  ∧ Forall (λ u, destination u = "localSettings") granted
  ∧ (λ u, (updateType u, rules u, updateBehavior u)) <$> granted
    = (λ u, (updateType u, rules u, updateBehavior u))
        <$> JS.or_array (ClaudeSDK.suggestions meta).
Proof.
  intros asked answer granted. subst asked answer granted.
  cbn [ClaudeSDK.canUseTool alwaysAllowResponse fst snd ClaudeSDK.msgRequestId
       ClaudeSDK.msgSuggestions].
  split_and!.
  - unfold ClaudeSDK.resolvePermissionRequest, ClaudeSDK.registerPermissionRequest.
    cbn [ClaudeSDK.pendingPermissionRequests ClaudeSDK.resolverCalls].
    rewrite JSMapFacts.get_set_eq. reflexivity.
  - unfold persistedPermissions. apply Forall_fmap, Forall_forall. by intros u _.
  - unfold persistedPermissions. rewrite <- list_fmap_compose. done.
Qed.

End ClientMore.

(** ** The buffer of received WebSocket messages *)

Module WebSocketFacts.
Import WebSocketHook.

Lemma sliceLast_short {A} n (a : list A) : length a <= n -> sliceLast n a = a.
Proof.
  intros Hle. unfold sliceLast.
  by replace (length a - n) with 0 by lia.
Qed.

Lemma sliceLast_length {A} n (a : list A) : length (sliceLast n a) <= n.
Proof. unfold sliceLast. rewrite length_drop. lia. Qed.

Lemma sliceLast_snoc {A} n (a : list A) x :
  0 < n -> sliceLast n (sliceLast n a ++ [x]) = sliceLast n (a ++ [x]).
Proof.
  intros Hn. destruct (decide (length a <= n)) as [Hle|Hgt].
  - by rewrite (sliceLast_short n a).
  - unfold sliceLast. rewrite !length_app, length_drop. cbn [length].
    rewrite !drop_app_le by (rewrite ?length_drop; lia).
    rewrite drop_drop. f_equal. f_equal. lia.
Qed.

(** X24: the hook keeps the most recent fifty parsed messages in their order
    of arrival: starting from a buffer within the limit, after any sequence
    of frames the buffer holds the last fifty of the old buffer followed by
    the frames that parsed, and frames that fail to parse are skipped. *)
Theorem buffer_keeps_latest {A} (frames : list (option A)) (messages : list A) :
  length messages <= MESSAGE_BUFFER ->
  receiveAll frames messages
  = sliceLast MESSAGE_BUFFER (messages ++ omap id frames)
  ∧ length (receiveAll frames messages) <= MESSAGE_BUFFER.
Proof.
  intros Hlen.
  assert (Heq : ∀ received,
            fold_left (λ acc parsed, onMessage parsed acc) frames
                      (sliceLast MESSAGE_BUFFER received)
            = sliceLast MESSAGE_BUFFER (received ++ omap id frames)).
  { induction frames as [|f frames IH]; intros received; cbn [fold_left omap].
    - by rewrite app_nil_r.
    - destruct f as [data|]; cbn [onMessage id].
      + rewrite sliceLast_snoc by (unfold MESSAGE_BUFFER; lia).
        rewrite IH. by rewrite <- app_assoc.
      + apply IH. }
  assert (Hall : receiveAll frames messages
                 = sliceLast MESSAGE_BUFFER (messages ++ omap id frames)).
  { unfold receiveAll.
    rewrite <- (sliceLast_short MESSAGE_BUFFER messages) at 1 by done. apply Heq. }
  rewrite Hall. split; [done | apply sliceLast_length].
Qed.

Lemma buffer_keeps_latest_witness :
  receiveAll [Some "a"; None; Some "b"] ["x"] = ["x"; "a"; "b"].
Proof.
  apply (proj1 (buffer_keeps_latest [Some "a"; None; Some "b"] ["x"]
                  ltac:(vm_compute; lia))).
Defined.

End WebSocketFacts.

(** ** Projects and their session lists *)

Module ProjectFacts.
Import ProjectSignals.
Section facts.
Context {Session Info : Type}.
Implicit Types (st : ProjectState Session Info) (p : Project Info).

(** X25: marking a project's sessions as loading changes nothing that is
    shown but the two flags of that project: its sessions, cursor sessions
    and meta stay on display, and every other project's view, as well as the
    order of the projects, is untouched.  Storing the loaded sessions
    afterwards shows exactly the data given, flagged as loaded. *)
Theorem loading_keeps_sessions_shown projectName data st :
  let loadingState := setProjectSessionsLoading projectName st in
  let loadedState := setProjectSessions projectName data loadingState in
  projectsWithSessions loadingState
  = (λ v, if decide (name (viewProject v) = projectName)
          then {| viewProject := viewProject v;
                  viewSessions := viewSessions v;
                  viewCursorSessions := viewCursorSessions v;
                  sessionsLoaded := false;
                  sessionsLoading := true;
                  sessionMeta := sessionMeta v |}
          else v) <$> projectsWithSessions st
  ∧ projectsWithSessions loadedState
    = (λ v, if decide (name (viewProject v) = projectName)
            then {| viewProject := viewProject v;
                    viewSessions := JS.or_array (dataSessions data);
                    viewCursorSessions := JS.or_array (dataCursorSessions data);
                    sessionsLoaded := true;
                    sessionsLoading := false;
                    sessionMeta := JS.nullish (dataMeta data) defaultMeta |}
            else v) <$> projectsWithSessions st.
Proof.
  intros loadingState loadedState. subst loadedState loadingState.
  unfold projectsWithSessions.
  cbn [setProjectSessions setProjectSessionsLoading projects].
  rewrite <- !list_fmap_compose. split; apply list_fmap_ext; intros i p _;
    unfold compose, viewOf, setProjectSessions, setProjectSessionsLoading;
    cbn [viewProject projectSessions].
  - destruct (decide (name p = projectName)) as [Heq|Hne].
    + rewrite Heq, lookup_insert_eq. cbn.
      by destruct (projectSessions st !! projectName).
    + by rewrite lookup_insert_ne by done.
  - destruct (decide (name p = projectName)) as [Heq|Hne].
    + by rewrite Heq, lookup_insert_eq.
    + by rewrite !lookup_insert_ne by done.
Qed.

End facts.
End ProjectFacts.

(** ** Helpers of the session list *)

Module MessagesViewFacts.
Import MessagesView.

Lemma length_append (a b : string) :
  String.length (a +:+ b) = String.length a + String.length b.
Proof.
  induction a as [|c a IH]; [done|].
  change (String c a +:+ b) with (String c (a +:+ b)). cbn [String.length].
  by rewrite IH.
Qed.

Lemma length_substring_0 (n : nat) (t : string) :
  String.length (substring 0 n t) = n `min` String.length t.
Proof.
  revert t. induction n as [|n IH]; intros t.
  - by destruct t.
  - destruct t as [|c t]; [done|]. cbn [substring String.length]. by rewrite IH.
Qed.

Lemma substring_0_prefix (n : nat) (t rest : string) :
  String.prefix (substring 0 n t) (substring 0 n t +:+ rest) = true.
Proof. apply ClientMore.prefix_append. Qed.

(** X26: truncating never yields more than the limit plus the three dots;
    a text within the limit comes back unchanged, a longer one comes back as
    its first [maxLength] characters followed by the dots, and a missing or
    empty text gives the empty string. *)
Theorem truncate_bounds (text : option string) (maxLength : nat) :
  let result := truncateText text (Some maxLength) in
  String.length result <= maxLength + 3
  ∧ (∀ t, text = Some t -> String.length t <= maxLength -> result = t)
  ∧ (∀ t, text = Some t -> maxLength < String.length t ->
       result = substring 0 maxLength t +:+ "..."
       ∧ String.length result = maxLength + 3)
  ∧ (text = None ∨ text = Some "" -> result = "").
Proof.
  intros result. subst result. unfold truncateText. cbn [JS.nullish].
  split_and!.
  - destruct text as [t|]; [|cbn; lia]. destruct (JS.truthy t); [|cbn; lia].
    destruct (String.length t <=? maxLength)%nat eqn:Hle.
    + apply Nat.leb_le in Hle. lia.
    + rewrite length_append, length_substring_0. cbn [String.length]. lia.
  - intros t -> Hle. destruct (JS.truthy t) eqn:Ht.
    + by rewrite (proj2 (Nat.leb_le _ _) Hle).
    + destruct t; [done | discriminate Ht].
  - intros t -> Hlt. destruct (JS.truthy t) eqn:Ht.
    + rewrite (proj2 (Nat.leb_gt _ _) Hlt). split; [done|].
      rewrite length_append, length_substring_0. cbn [String.length]. lia.
    + destruct t; [cbn in Hlt; lia | discriminate Ht].
  - intros [->| ->]; done.
Qed.

Section groups.
Context {S : Type}.

Lemma push_groups (date : S -> option Z) (a b c : Z) (g : Groups S) (sessions : list S) :
  let final := fold_left (pushSession date a b c) sessions g in
  today final = today g ++ filter (λ s, periodOf date a b c s = 0) sessions
  ∧ yesterday final = yesterday g ++ filter (λ s, periodOf date a b c s = 1) sessions
  ∧ thisWeek final = thisWeek g ++ filter (λ s, periodOf date a b c s = 2) sessions
  ∧ earlier final = earlier g ++ filter (λ s, periodOf date a b c s = 3) sessions.
Proof.
  revert g. induction sessions as [|s sessions IH]; intros g; cbn [fold_left].
  - rewrite !filter_nil, !app_nil_r. done.
  - destruct (IH (pushSession date a b c g s)) as (H0 & H1 & H2 & H3).
    cbn zeta. rewrite H0, H1, H2, H3. rewrite !filter_cons.
    unfold pushSession, periodOf.
    destruct (date s) as [d|]; [destruct (a <=? d)%Z; [|destruct (b <=? d)%Z;
      [|destruct (c <=? d)%Z]]|];
      cbn [today yesterday thisWeek earlier];
      repeat (destruct (decide _); try done);
      rewrite <- ?app_assoc; done.
Qed.

(** X27: grouping the sessions by time period loses and duplicates nothing:
    each group holds, in the order of the input, exactly the sessions of its
    period, every session falls in exactly one period, and sessions with an
    invalid date end up under earlier. *)
Theorem grouping_partitions (date : S -> option Z) (a b c : Z) (sessions : list S) :
  let groups := groupByTimePeriod date a b c sessions in
  today groups = filter (λ s, periodOf date a b c s = 0) sessions
  ∧ yesterday groups = filter (λ s, periodOf date a b c s = 1) sessions
  ∧ thisWeek groups = filter (λ s, periodOf date a b c s = 2) sessions
  ∧ earlier groups = filter (λ s, periodOf date a b c s = 3) sessions
  ∧ length (today groups) + length (yesterday groups)
    + length (thisWeek groups) + length (earlier groups) = length sessions
  ∧ ∀ s, s ∈ sessions -> date s = None -> s ∈ earlier groups.
Proof.
  intros groups. subst groups. unfold groupByTimePeriod.
  destruct (push_groups date a b c
              {| today := []; yesterday := []; thisWeek := []; earlier := [] |}
              sessions) as (H0 & H1 & H2 & H3).
  cbn [today yesterday thisWeek earlier app] in *.
  rewrite H0, H1, H2, H3. split_and!; try done.
  - clear. induction sessions as [|s sessions IH]; [done|].
    rewrite !filter_cons. cbn [length]. rewrite <- IH.
    assert (Hp : periodOf date a b c s < 4).
    { unfold periodOf. destruct (date s); [|lia].
      repeat match goal with |- context [(?x <=? ?y)%Z] => destruct (x <=? y)%Z end; lia. }
    destruct (periodOf date a b c s) as [|[|[|[|n]]]]; [| | | |lia];
      repeat (destruct (decide _); try done); cbn [length]; lia.
  - intros s Hs Hdate. apply list_elem_of_filter. split; [|done].
    unfold periodOf. by rewrite Hdate.
Qed.

End groups.
End MessagesViewFacts.

Module MoreWitnesses.
Import ClaudeSDK Scenarios.

Lemma response_after_abort_witness :
  let st1 := onAbortSignal "perm_1" twoPending in
  resolvePermissionRequest "perm_1" allowAlways st1 = (false, st1)
  ∧ JSMap.get "perm_2" (pendingPermissionRequests st1)
    = Some {| metadata := bashRequest; timestamp := 200000 |}.
Proof.
  intros st1.
  destruct (ArbiterMore.response_after_abort_not_found "perm_1" allowAlways twoPending)
    as (Hnot & _ & Hother).
  split; [exact Hnot|]. subst st1. rewrite Hother by discriminate. reflexivity.
Defined.

Lemma add_then_remove_session_witness :
  getSession "abc123"
    (removeSession "xyz789" (addSession "xyz789" 9 [] None oneRunningSession))
  = getSession "abc123" oneRunningSession.
Proof.
  destruct (SessionsMore.add_then_remove_session "xyz789" 9 [] None oneRunningSession)
    as (_ & _ & _ & _ & Hother).
  apply Hother. discriminate.
Defined.

Lemma store_eviction_frame_witness :
  SessionStore.sessionData (SessionStore._evictIfNeeded elevenBeforeEvictionStore) !! "s0"
  = SessionStore.sessionData elevenBeforeEvictionStore !! "s0".
Proof.
  destruct (StoreMore.store_eviction_frame elevenBeforeEvictionStore) as (_ & Hkeep & _).
  apply Hkeep. right. reflexivity.
Defined.

Lemma replace_temporary_frame_witness :
  "abc123" ∈ (App.replaceTemporarySession "xyz789" ["abc123"; "new-session-1000"]).1.
Proof.
  destruct (ClientMore.replace_temporary_frame "xyz789" ["abc123"; "new-session-1000"])
    as (_ & Hkeep & _).
  apply Hkeep; [left | reflexivity].
Defined.


Lemma filter_fix_only_widens_witness :
  ChatInterface.acceptsMessage false (Some "abc123") ChatInterface.newConversation = true.
Proof.
  destruct (ClientMore.filter_fix_only_widens false (Some "abc123")
              ChatInterface.newConversation) as [_ Hnew].
  apply Hnew. split_and!; try reflexivity. by left.
Defined.

Lemma truncate_bounds_witness :
  MessagesView.truncateText (Some "hello world") (Some 5) = "hello...".
Proof.
  destruct (MessagesViewFacts.truncate_bounds (Some "hello world") 5)
    as (_ & _ & Hlong & _).
  destruct (Hlong "hello world" eq_refl ltac:(vm_compute; lia)) as [-> _].
  reflexivity.
Defined.

Lemma grouping_partitions_witness :
  MessagesView.earlier
    (MessagesView.groupByTimePeriod (λ s : option Z, s) 300 200 100
       [Some 350; None; Some 250; Some 50]%Z)
  = [None; Some 50%Z].
Proof.
  destruct (MessagesViewFacts.grouping_partitions (λ s : option Z, s) 300 200 100
              [Some 350; None; Some 250; Some 50]%Z) as (_ & _ & _ & -> & _).
  vm_compute. reflexivity.
Defined.

End MoreWitnesses.
